(** * CIEEE754: rounding control, exception flags and signaling comparisons

    A shallow embedding of the C sources of the CIEEE754 target
    ([fpu_rounding.c], [fpu_exceptions.c], [tls_exceptions.c],
    [signaling_compare.c] and [include/ieee754_fpu.h]).

    - C integers ([int], the two enumerations, [uint8_t] fields) are [Z].
    - A [double] or [float] operand is its IEEE 754 bit pattern, a [Z];
      the C relational operators on it are the comparisons of [SpecFloat]
      on the decoded operand.
    - The process state is explicit: the [pthread_once] control, the values
      bound to [exception_key] per thread, the heap blocks handed out by
      [calloc], and one floating-point environment per thread.
    - A C function is a computation [M A]: it reads the calling thread,
      threads the process state, and is undefined ([None]) when it would
      dereference a pointer that owns no block. *)

From Stdlib Require Import ZArith Bool Lia SpecFloat.
From stdpp Require Import base option functions gmap list.

Local Open Scope Z_scope.

(** ** The platform's [<fenv.h>] *)

(** The macros of [<fenv.h>] and the behaviour of [fesetround] belong to the
    platform, not to this repository: they are parameters. *)
Class FenvH := {
  FE_TONEAREST : Z;
  FE_DOWNWARD : Z;
  FE_UPWARD : Z;
  FE_TOWARDZERO : Z;
  FE_INVALID : Z;
  FE_DIVBYZERO : Z;
  FE_OVERFLOW : Z;
  FE_UNDERFLOW : Z;
  FE_INEXACT : Z;
  FE_ALL_EXCEPT : Z;
  (** the rounding-direction values [fesetround] accepts *)
  fe_round_supported : Z → bool;
  (** what [fesetround] returns when it refuses its argument *)
  fe_round_refused : Z
}.

(** What ISO C (C17 7.6) promises about these parameters, one promise at a
    time. The rounding macros are distinct constants: they are [case]
    labels of one [switch] in [fpu_rounding.c]. *)
Definition round_macros_distinct `{FenvH} : Prop :=
  NoDup [FE_TONEAREST; FE_DOWNWARD; FE_UPWARD; FE_TOWARDZERO].

(** A rounding macro is defined only if [fesetround] accepts it, and the
    source uses all four. *)
Definition round_macros_supported `{FenvH} : Prop :=
  Forall (λ r, fe_round_supported r = true)
         [FE_TONEAREST; FE_DOWNWARD; FE_UPWARD; FE_TOWARDZERO].

(** [fesetround] returns zero only when it has accepted its argument. *)
Definition refusal_nonzero `{FenvH} : Prop :=
  fe_round_refused ≠ 0.

(** [FE_INVALID] is a non-zero part of [FE_ALL_EXCEPT]. *)
Definition invalid_testable `{FenvH} : Prop :=
  FE_INVALID ≠ 0 ∧ Z.land FE_INVALID FE_ALL_EXCEPT = FE_INVALID.

(** The values of glibc on x86-64, used to run the model. *)
Definition glibc_x86_64 : FenvH := {|
  FE_TONEAREST := 0;
  FE_DOWNWARD := 0x400;
  FE_UPWARD := 0x800;
  FE_TOWARDZERO := 0xc00;
  FE_INVALID := 0x01;
  FE_DIVBYZERO := 0x04;
  FE_OVERFLOW := 0x08;
  FE_UNDERFLOW := 0x10;
  FE_INEXACT := 0x20;
  FE_ALL_EXCEPT := 0x3d;
  fe_round_supported := λ r, bool_decide (r ∈ [0; 0x400; 0x800; 0xc00]);
  fe_round_refused := 1
|}.

(** A platform whose [fesetround] accepts round-to-nearest only. *)
Definition nearest_only : FenvH := {|
  FE_TONEAREST := 0;
  FE_DOWNWARD := 0x400;
  FE_UPWARD := 0x800;
  FE_TOWARDZERO := 0xc00;
  FE_INVALID := 0x01;
  FE_DIVBYZERO := 0x04;
  FE_OVERFLOW := 0x08;
  FE_UNDERFLOW := 0x10;
  FE_INEXACT := 0x20;
  FE_ALL_EXCEPT := 0x3d;
  fe_round_supported := λ r, r =? 0;
  fe_round_refused := 1
|}.

(** ** [include/ieee754_fpu.h] *)

(** [IEEE754RoundingMode] *)
Definition IEEE754_ROUND_TONEAREST : Z := 0.
Definition IEEE754_ROUND_DOWNWARD : Z := 1.
Definition IEEE754_ROUND_UPWARD : Z := 2.
Definition IEEE754_ROUND_TOWARDZERO : Z := 3.

(** [IEEE754ExceptionFlag] *)
Definition IEEE754_EXCEPTION_INVALID : Z := 0.
Definition IEEE754_EXCEPTION_DIVBYZERO : Z := 1.
Definition IEEE754_EXCEPTION_OVERFLOW : Z := 2.
Definition IEEE754_EXCEPTION_UNDERFLOW : Z := 3.
Definition IEEE754_EXCEPTION_INEXACT : Z := 4.

(** [IEEE754Exceptions]: five [uint8_t] fields. *)
Record IEEE754Exceptions := mkExceptions {
  invalid : Z;
  divByZero : Z;
  overflow : Z;
  underflow : Z;
  inexact : Z
}.

(** ** Process state *)

(** [ThreadExceptionState] of [tls_exceptions.c], one heap block per thread. *)
Module ThreadExceptionState.
Record t := mk {
  invalid : Z;
  divByZero : Z;
  overflow : Z;
  underflow : Z;
  inexact : Z
}.

(** The block [calloc] returns, and the one [memset (state, 0, ...)] leaves. *)
Definition zero : t := mk 0 0 0 0 0.

(** [state->field = v] *)
Definition set_invalid (v : Z) (s : t) : t :=
  mk v (divByZero s) (overflow s) (underflow s) (inexact s).
Definition set_divByZero (v : Z) (s : t) : t :=
  mk (invalid s) v (overflow s) (underflow s) (inexact s).
Definition set_overflow (v : Z) (s : t) : t :=
  mk (invalid s) (divByZero s) v (underflow s) (inexact s).
Definition set_underflow (v : Z) (s : t) : t :=
  mk (invalid s) (divByZero s) (overflow s) v (inexact s).
Definition set_inexact (v : Z) (s : t) : t :=
  mk (invalid s) (divByZero s) (overflow s) (underflow s) v.
End ThreadExceptionState.
Abbreviation TES := ThreadExceptionState.t.

(** The floating-point environment of a thread: the rounding-direction
    control as [fegetround] reports it, and the status flags as a mask. *)
Record FEnv := mkFEnv {
  fe_round : Z;
  fe_except : Z
}.

(** The state of the process. Threads are named by a [nat] and heap blocks
    by a [positive] address; a pointer is [None] (NULL) or [Some] address. *)
Record Process := mkProcess {
  (** [key_once] has run [make_exception_key] *)
  key_once : bool;
  (** the value bound to [exception_key] in each thread; absent is NULL *)
  specific : gmap nat positive;
  (** the blocks allocated by [calloc] *)
  heap : gmap positive TES;
  (** one floating-point environment per thread *)
  fenv : nat → FEnv
}.

Definition set_key_once (b : bool) (σ : Process) : Process :=
  mkProcess b (specific σ) (heap σ) (fenv σ).
Definition set_specific (m : gmap nat positive) (σ : Process) : Process :=
  mkProcess (key_once σ) m (heap σ) (fenv σ).
Definition set_heap (h : gmap positive TES) (σ : Process) : Process :=
  mkProcess (key_once σ) (specific σ) h (fenv σ).
Definition set_fenv (f : nat → FEnv) (σ : Process) : Process :=
  mkProcess (key_once σ) (specific σ) (heap σ) f.

(** ** Computations *)

Definition M (A : Type) : Type := nat → Process → option (A * Process).

#[global] Instance M_ret : MRet M := λ A a _ σ, Some (a, σ).
#[global] Instance M_bind : MBind M := λ A B k m t σ,
  match m t σ with
  | Some (a, σ') => k a t σ'
  | None => None
  end.

(** The state a computation leaves, and the value it returns. *)
Definition exec {A} (m : M A) (t : nat) (σ : Process) : option Process :=
  snd <$> m t σ.
Definition eval {A} (m : M A) (t : nat) (σ : Process) : option A :=
  fst <$> m t σ.

(** *** POSIX threads and the allocator *)

(** [pthread_key_create (&exception_key, destructor)]: the new key is bound
    to NULL in every thread. The destructor is the one [thread_exit] runs. *)
Definition pthread_key_create (destructor : positive → M unit) : M unit :=
  λ _ σ, Some ((), set_specific ∅ σ).

(** [pthread_once (&key_once, init)] *)
Definition pthread_once (init : M unit) : M unit :=
  λ t σ, if key_once σ then Some ((), σ)
         else match init t σ with
              | Some (_, σ') => Some ((), set_key_once true σ')
              | None => None
              end.

(** [pthread_getspecific (exception_key)] *)
Definition pthread_getspecific : M (option positive) :=
  λ t σ, Some (specific σ !! t, σ).

(** [pthread_setspecific (exception_key, p)] for a block address [p] *)
Definition pthread_setspecific (p : positive) : M unit :=
  λ t σ, Some ((), set_specific (<[t := p]> (specific σ)) σ).

(** [calloc (1, sizeof (ThreadExceptionState))]: a block at an address that
    owns none, filled with zero bytes. Allocation is taken to succeed, as
    the source takes it. *)
Definition calloc : M positive :=
  λ _ σ, let p := fresh (dom (heap σ)) in
         Some (p, set_heap (<[p := ThreadExceptionState.zero]> (heap σ)) σ).

(** [free (p)] for a block address [p]; undefined when the address owns no
    block. *)
Definition free (p : positive) : M unit :=
  λ _ σ, _ ← heap σ !! p; Some ((), set_heap (delete p (heap σ)) σ).

(** Reading and writing through a pointer to a [ThreadExceptionState];
    undefined when the address owns no block. *)
Definition load (p : positive) : M TES :=
  λ _ σ, s ← heap σ !! p; Some (s, σ).
Definition store (p : positive) (s : TES) : M unit :=
  λ _ σ, _ ← heap σ !! p; Some ((), set_heap (<[p := s]> (heap σ)) σ).
(** [state->field = v] *)
Definition assign (p : positive) (set : Z → TES → TES) (v : Z) : M unit :=
  s ← load p; store p (set v s).
(** [memset (state, 0, sizeof (ThreadExceptionState))] *)
Definition memset_zero (p : positive) : M unit :=
  store p ThreadExceptionState.zero.

(** *** [<fenv.h>] *)

Section Fenv.
Context {P : FenvH}.

Definition fegetround : M Z :=
  λ t σ, Some (fe_round (fenv σ t), σ).

Definition fesetround (round : Z) : M Z :=
  λ t σ, if fe_round_supported round
         then Some (0, set_fenv (<[t := mkFEnv round (fe_except (fenv σ t))]>
                                   (fenv σ)) σ)
         else Some (fe_round_refused, σ).

Definition feraiseexcept (excepts : Z) : M Z :=
  λ t σ, Some (0, set_fenv (<[t := mkFEnv (fe_round (fenv σ t))
                                     (Z.lor (fe_except (fenv σ t)) excepts)]>
                              (fenv σ)) σ).

Definition fetestexcept (excepts : Z) : M Z :=
  λ t σ, Some (Z.land (fe_except (fenv σ t)) excepts, σ).

Definition feclearexcept (excepts : Z) : M Z :=
  λ t σ, Some (0, set_fenv (<[t := mkFEnv (fe_round (fenv σ t))
                                     (Z.ldiff (fe_except (fenv σ t)) excepts)]>
                              (fenv σ)) σ).
End Fenv.

(** ** [tls_exceptions.c] *)

(** [cleanup_thread_exceptions] *)
Definition cleanup_thread_exceptions (state : positive) : M unit :=
  free state.

(** [make_exception_key] *)
Definition make_exception_key : M unit :=
  pthread_key_create cleanup_thread_exceptions.

(** What POSIX does with [exception_key] when the calling thread ends: a
    value that is not NULL is reset to NULL and handed to the destructor
    registered by [make_exception_key]. *)
Definition thread_exit : M unit :=
  λ t σ, match specific σ !! t with
         | Some p =>
             cleanup_thread_exceptions p t
               (set_specific (delete t (specific σ)) σ)
         | None => Some ((), σ)
         end.

(** [get_thread_state]: the block of the calling thread, allocated on first
    use. *)
Definition get_thread_state : M positive :=
  pthread_once make_exception_key ;;
  state ← pthread_getspecific;
  match state with
  | Some p => mret p
  | None =>
      p ← calloc;
      pthread_setspecific p ;;
      mret p
  end.

Definition ieee754_raise_exception (flag : Z) : M unit :=
  state ← get_thread_state;
  if flag =? IEEE754_EXCEPTION_INVALID then
    assign state ThreadExceptionState.set_invalid 1
  else if flag =? IEEE754_EXCEPTION_DIVBYZERO then
    assign state ThreadExceptionState.set_divByZero 1
  else if flag =? IEEE754_EXCEPTION_OVERFLOW then
    assign state ThreadExceptionState.set_overflow 1
  else if flag =? IEEE754_EXCEPTION_UNDERFLOW then
    assign state ThreadExceptionState.set_underflow 1
  else if flag =? IEEE754_EXCEPTION_INEXACT then
    assign state ThreadExceptionState.set_inexact 1
  else mret ().

Definition ieee754_test_exception (flag : Z) : M Z :=
  state ← get_thread_state;
  if flag =? IEEE754_EXCEPTION_INVALID then
    s ← load state; mret (ThreadExceptionState.invalid s)
  else if flag =? IEEE754_EXCEPTION_DIVBYZERO then
    s ← load state; mret (ThreadExceptionState.divByZero s)
  else if flag =? IEEE754_EXCEPTION_OVERFLOW then
    s ← load state; mret (ThreadExceptionState.overflow s)
  else if flag =? IEEE754_EXCEPTION_UNDERFLOW then
    s ← load state; mret (ThreadExceptionState.underflow s)
  else if flag =? IEEE754_EXCEPTION_INEXACT then
    s ← load state; mret (ThreadExceptionState.inexact s)
  else mret 0.

Definition ieee754_clear_exception (flag : Z) : M unit :=
  state ← get_thread_state;
  if flag =? IEEE754_EXCEPTION_INVALID then
    assign state ThreadExceptionState.set_invalid 0
  else if flag =? IEEE754_EXCEPTION_DIVBYZERO then
    assign state ThreadExceptionState.set_divByZero 0
  else if flag =? IEEE754_EXCEPTION_OVERFLOW then
    assign state ThreadExceptionState.set_overflow 0
  else if flag =? IEEE754_EXCEPTION_UNDERFLOW then
    assign state ThreadExceptionState.set_underflow 0
  else if flag =? IEEE754_EXCEPTION_INEXACT then
    assign state ThreadExceptionState.set_inexact 0
  else mret ().

Definition ieee754_get_exceptions : M IEEE754Exceptions :=
  state ← get_thread_state;
  s ← load state;
  mret {| invalid := ThreadExceptionState.invalid s;
          divByZero := ThreadExceptionState.divByZero s;
          overflow := ThreadExceptionState.overflow s;
          underflow := ThreadExceptionState.underflow s;
          inexact := ThreadExceptionState.inexact s |}.

Definition ieee754_clear_all_exceptions : M unit :=
  state ← get_thread_state;
  memset_zero state.

(** ** [fpu_rounding.c] and [fpu_exceptions.c] *)

Section Fpu.
Context {P : FenvH}.

Definition ieee754_to_fe_round (mode : Z) : Z :=
  if mode =? IEEE754_ROUND_TONEAREST then FE_TONEAREST
  else if mode =? IEEE754_ROUND_DOWNWARD then FE_DOWNWARD
  else if mode =? IEEE754_ROUND_UPWARD then FE_UPWARD
  else if mode =? IEEE754_ROUND_TOWARDZERO then FE_TOWARDZERO
  else FE_TONEAREST.

Definition fe_round_to_ieee754 (fe_mode : Z) : Z :=
  if fe_mode =? FE_TONEAREST then IEEE754_ROUND_TONEAREST
  else if fe_mode =? FE_DOWNWARD then IEEE754_ROUND_DOWNWARD
  else if fe_mode =? FE_UPWARD then IEEE754_ROUND_UPWARD
  else if fe_mode =? FE_TOWARDZERO then IEEE754_ROUND_TOWARDZERO
  else IEEE754_ROUND_TONEAREST.

Definition ieee754_set_rounding_mode (mode : Z) : M Z :=
  let fe_mode := ieee754_to_fe_round mode in
  fesetround fe_mode.

Definition ieee754_get_rounding_mode : M Z :=
  fe_mode ← fegetround;
  mret (fe_round_to_ieee754 fe_mode).

(** [(flags & FE_X) ? 1 : 0] *)
Definition flag_bit (flags mask : Z) : Z :=
  if Z.land flags mask =? 0 then 0 else 1.

Definition ieee754_test_fpu_exceptions : M IEEE754Exceptions :=
  flags ← fetestexcept FE_ALL_EXCEPT;
  mret {| invalid := flag_bit flags FE_INVALID;
          divByZero := flag_bit flags FE_DIVBYZERO;
          overflow := flag_bit flags FE_OVERFLOW;
          underflow := flag_bit flags FE_UNDERFLOW;
          inexact := flag_bit flags FE_INEXACT |}.

Definition ieee754_clear_fpu_exceptions : M unit :=
  feclearexcept FE_ALL_EXCEPT ;;
  mret ().

End Fpu.

(** ** IEEE 754 binary operands *)

(** A binary interchange format: the widths of the exponent and fraction
    fields. An operand is the [1 + ebits + mbits]-bit pattern of the C
    value. *)
Record Format := mkFormat {
  ebits : Z;
  mbits : Z
}.

(** [double] and [float] *)
Definition binary64 : Format := mkFormat 11 52.
Definition binary32 : Format := mkFormat 8 23.

Section Binary.
Variable fmt : Format.

Definition sign_bit (b : Z) : bool :=
  Z.testbit b (ebits fmt + mbits fmt).
Definition biased_exponent (b : Z) : Z :=
  Z.land (Z.shiftr b (mbits fmt)) (Z.ones (ebits fmt)).
Definition fraction (b : Z) : Z :=
  Z.land b (Z.ones (mbits fmt)).

Definition bias : Z := 2 ^ (ebits fmt - 1) - 1.

(** [isnan (x)] of [<math.h>]: the exponent field is all ones and the
    fraction is not zero. *)
Definition isnan (b : Z) : bool :=
  (biased_exponent b =? Z.ones (ebits fmt)) && negb (fraction b =? 0).

(** A NaN is quiet when the leading fraction bit is set, signaling
    otherwise. *)
Definition is_quiet_nan (b : Z) : bool :=
  isnan b && Z.testbit b (mbits fmt - 1).
Definition is_signaling_nan (b : Z) : bool :=
  isnan b && negb (Z.testbit b (mbits fmt - 1)).

(** The operand as a [spec_float]. *)
Definition decode (b : Z) : spec_float :=
  let s := sign_bit b in
  let e := biased_exponent b in
  let f := fraction b in
  if e =? Z.ones (ebits fmt) then
    if f =? 0 then S754_infinity s else S754_nan
  else if e =? 0 then
    if f =? 0 then S754_zero s
    else S754_finite s (Z.to_pos f) (1 - bias - mbits fmt)
  else S754_finite s (Z.to_pos (f + 2 ^ mbits fmt)) (e - bias - mbits fmt).

(** The C operators [==], [<], [<=], [>], [>=] and [!=] on two operands;
    the result is the [int] 0 or 1. *)
Definition c_eq (x y : Z) : Z := Z.b2z (SFeqb (decode x) (decode y)).
Definition c_lt (x y : Z) : Z := Z.b2z (SFltb (decode x) (decode y)).
Definition c_le (x y : Z) : Z := Z.b2z (SFleb (decode x) (decode y)).
Definition c_gt (x y : Z) : Z := Z.b2z (SFltb (decode y) (decode x)).
Definition c_ge (x y : Z) : Z := Z.b2z (SFleb (decode y) (decode x)).
Definition c_ne (x y : Z) : Z := Z.b2z (negb (SFeqb (decode x) (decode y))).

End Binary.

(** *** The number an operand denotes *)

(** An extended number: an infinity, or a finite value counted in units of
    the least positive subnormal of the format (every finite operand is a
    whole multiple of it). *)
Inductive number :=
  | MinusInfinity
  | Finite (n : Z)
  | PlusInfinity.

Definition number_compare (a b : number) : comparison :=
  match a, b with
  | MinusInfinity, MinusInfinity => Eq
  | MinusInfinity, _ => Lt
  | _, MinusInfinity => Gt
  | PlusInfinity, PlusInfinity => Eq
  | PlusInfinity, _ => Gt
  | _, PlusInfinity => Lt
  | Finite m, Finite n => m ?= n
  end.

Definition number_eq (a b : number) : Prop := number_compare a b = Eq.
Definition number_lt (a b : number) : Prop := number_compare a b = Lt.
Definition number_le (a b : number) : Prop := number_compare a b ≠ Gt.

(** The number denoted by an operand that is not a NaN: the significand
    ([fraction], with the hidden bit unless the exponent field is zero)
    scaled by the exponent, negated when the sign bit is set. *)
Definition number_of (fmt : Format) (b : Z) : number :=
  let e := biased_exponent fmt b in
  let f := fraction fmt b in
  if e =? Z.ones (ebits fmt) then
    if sign_bit fmt b then MinusInfinity else PlusInfinity
  else
    let m := if e =? 0 then f else f + 2 ^ mbits fmt in
    let n := m * 2 ^ (Z.max e 1 - 1) in
    Finite (if sign_bit fmt b then - n else n).

(** ** [signaling_compare.c] *)

Section Compare.
Context {P : FenvH}.

(** *** Double (binary64) signaling comparisons *)

Definition ieee754_signaling_equal (x y : Z) : M Z :=
  if isnan binary64 x || isnan binary64 y then
    feraiseexcept FE_INVALID ;;
    ieee754_raise_exception IEEE754_EXCEPTION_INVALID ;;
    mret 0
  else mret (c_eq binary64 x y).

Definition ieee754_signaling_less (x y : Z) : M Z :=
  if isnan binary64 x || isnan binary64 y then
    feraiseexcept FE_INVALID ;;
    ieee754_raise_exception IEEE754_EXCEPTION_INVALID ;;
    mret 0
  else mret (c_lt binary64 x y).

Definition ieee754_signaling_less_equal (x y : Z) : M Z :=
  if isnan binary64 x || isnan binary64 y then
    feraiseexcept FE_INVALID ;;
    ieee754_raise_exception IEEE754_EXCEPTION_INVALID ;;
    mret 0
  else mret (c_le binary64 x y).

Definition ieee754_signaling_greater (x y : Z) : M Z :=
  if isnan binary64 x || isnan binary64 y then
    feraiseexcept FE_INVALID ;;
    ieee754_raise_exception IEEE754_EXCEPTION_INVALID ;;
    mret 0
  else mret (c_gt binary64 x y).

Definition ieee754_signaling_greater_equal (x y : Z) : M Z :=
  if isnan binary64 x || isnan binary64 y then
    feraiseexcept FE_INVALID ;;
    ieee754_raise_exception IEEE754_EXCEPTION_INVALID ;;
    mret 0
  else mret (c_ge binary64 x y).

Definition ieee754_signaling_not_equal (x y : Z) : M Z :=
  if isnan binary64 x || isnan binary64 y then
    feraiseexcept FE_INVALID ;;
    ieee754_raise_exception IEEE754_EXCEPTION_INVALID ;;
    mret 1
  else mret (c_ne binary64 x y).

(** *** Float (binary32) signaling comparisons *)

Definition ieee754_signaling_equal_f (x y : Z) : M Z :=
  if isnan binary32 x || isnan binary32 y then
    feraiseexcept FE_INVALID ;;
    ieee754_raise_exception IEEE754_EXCEPTION_INVALID ;;
    mret 0
  else mret (c_eq binary32 x y).

Definition ieee754_signaling_less_f (x y : Z) : M Z :=
  if isnan binary32 x || isnan binary32 y then
    feraiseexcept FE_INVALID ;;
    ieee754_raise_exception IEEE754_EXCEPTION_INVALID ;;
    mret 0
  else mret (c_lt binary32 x y).

Definition ieee754_signaling_less_equal_f (x y : Z) : M Z :=
  if isnan binary32 x || isnan binary32 y then
    feraiseexcept FE_INVALID ;;
    ieee754_raise_exception IEEE754_EXCEPTION_INVALID ;;
    mret 0
  else mret (c_le binary32 x y).

Definition ieee754_signaling_greater_f (x y : Z) : M Z :=
  if isnan binary32 x || isnan binary32 y then
    feraiseexcept FE_INVALID ;;
    ieee754_raise_exception IEEE754_EXCEPTION_INVALID ;;
    mret 0
  else mret (c_gt binary32 x y).

Definition ieee754_signaling_greater_equal_f (x y : Z) : M Z :=
  if isnan binary32 x || isnan binary32 y then
    feraiseexcept FE_INVALID ;;
    ieee754_raise_exception IEEE754_EXCEPTION_INVALID ;;
    mret 0
  else mret (c_ge binary32 x y).

Definition ieee754_signaling_not_equal_f (x y : Z) : M Z :=
  if isnan binary32 x || isnan binary32 y then
    feraiseexcept FE_INVALID ;;
    ieee754_raise_exception IEEE754_EXCEPTION_INVALID ;;
    mret 1
  else mret (c_ne binary32 x y).

(** *** The twelve comparators as one family *)

Inductive predicate := EQ | LT | LE | GT | GE | NE.
Inductive width := Double | Single.

Definition format_of (w : width) : Format :=
  match w with Double => binary64 | Single => binary32 end.

Definition comparator (w : width) (p : predicate) : Z → Z → M Z :=
  match w, p with
  | Double, EQ => ieee754_signaling_equal
  | Double, LT => ieee754_signaling_less
  | Double, LE => ieee754_signaling_less_equal
  | Double, GT => ieee754_signaling_greater
  | Double, GE => ieee754_signaling_greater_equal
  | Double, NE => ieee754_signaling_not_equal
  | Single, EQ => ieee754_signaling_equal_f
  | Single, LT => ieee754_signaling_less_f
  | Single, LE => ieee754_signaling_less_equal_f
  | Single, GT => ieee754_signaling_greater_f
  | Single, GE => ieee754_signaling_greater_equal_f
  | Single, NE => ieee754_signaling_not_equal_f
  end.

End Compare.

(** The result IEEE 754 prescribes for an unordered pair. *)
Definition unordered_result (p : predicate) : Z :=
  match p with NE => 1 | _ => 0 end.

(** The relation a predicate names, on the numbers two operands denote. *)
Definition holds (p : predicate) (a b : number) : Prop :=
  match p with
  | EQ => number_eq a b
  | LT => number_lt a b
  | LE => number_le a b
  | GT => number_lt b a
  | GE => number_le b a
  | NE => ¬ number_eq a b
  end.

(** * Vocabulary of the properties *)

(** ** Well-formed process states *)

(** What every reachable state satisfies: before [make_exception_key] has
    run no thread has a value for the key; a thread's value points to an
    allocated block; and no two threads point to the same block. *)
Record wf (σ : Process) : Prop := mkWf {
  wf_key : key_once σ = false → specific σ = ∅;
  wf_alloc : ∀ t p, specific σ !! t = Some p → is_Some (heap σ !! p);
  wf_inj : ∀ t1 t2 p,
    specific σ !! t1 = Some p → specific σ !! t2 = Some p → t1 = t2
}.

(** The state of a process that has called nothing yet. *)
Definition initial : Process :=
  mkProcess false ∅ ∅ (λ _, mkFEnv 0 0).

(** The software flags of thread [t] as a state holds them: its block if it
    has one, and otherwise the zeroed block its first access will get. *)
Definition flags_of (t : nat) (σ : Process) : TES :=
  match specific σ !! t with
  | Some p => default ThreadExceptionState.zero (heap σ !! p)
  | None => ThreadExceptionState.zero
  end.

(** The snapshot [ieee754_get_exceptions] makes of a block. *)
Definition snapshot (s : TES) : IEEE754Exceptions :=
  {| invalid := ThreadExceptionState.invalid s;
     divByZero := ThreadExceptionState.divByZero s;
     overflow := ThreadExceptionState.overflow s;
     underflow := ThreadExceptionState.underflow s;
     inexact := ThreadExceptionState.inexact s |}.

(** What [ieee754_raise_exception] and [ieee754_clear_exception] do to a
    block, by flag identifier. *)
Definition write_flag (flag v : Z) (s : TES) : TES :=
  if flag =? IEEE754_EXCEPTION_INVALID then
    ThreadExceptionState.set_invalid v s
  else if flag =? IEEE754_EXCEPTION_DIVBYZERO then
    ThreadExceptionState.set_divByZero v s
  else if flag =? IEEE754_EXCEPTION_OVERFLOW then
    ThreadExceptionState.set_overflow v s
  else if flag =? IEEE754_EXCEPTION_UNDERFLOW then
    ThreadExceptionState.set_underflow v s
  else if flag =? IEEE754_EXCEPTION_INEXACT then
    ThreadExceptionState.set_inexact v s
  else s.

Definition read_flag (flag : Z) (s : TES) : Z :=
  if flag =? IEEE754_EXCEPTION_INVALID then ThreadExceptionState.invalid s
  else if flag =? IEEE754_EXCEPTION_DIVBYZERO then
    ThreadExceptionState.divByZero s
  else if flag =? IEEE754_EXCEPTION_OVERFLOW then
    ThreadExceptionState.overflow s
  else if flag =? IEEE754_EXCEPTION_UNDERFLOW then
    ThreadExceptionState.underflow s
  else if flag =? IEEE754_EXCEPTION_INEXACT then
    ThreadExceptionState.inexact s
  else 0.

(** The five defined flag identifiers. *)
Definition defined_flag (flag : Z) : Prop := 0 <= flag <= 4.

(** [σ'] is [σ] after thread [t] has passed through [get_thread_state] and
    turned its block from [flags_of t σ] into [s']: nothing of another
    thread and no floating-point environment has changed. *)
Record touched (t : nat) (s' : TES) (σ σ' : Process) : Prop := mkTouched {
  touched_wf : wf σ';
  touched_once : key_once σ' = true;
  touched_block : ∃ p, specific σ' !! t = Some p ∧ heap σ' !! p = Some s';
  touched_frame : ∀ t', t' ≠ t → flags_of t' σ' = flags_of t' σ;
  touched_fenv : fenv σ' = fenv σ
}.

(** ** Comparisons *)

(** The C operator a predicate stands for. *)
Definition c_op (p : predicate) (fmt : Format) (x y : Z) : Z :=
  match p with
  | EQ => c_eq fmt x y
  | LT => c_lt fmt x y
  | LE => c_le fmt x y
  | GT => c_gt fmt x y
  | GE => c_ge fmt x y
  | NE => c_ne fmt x y
  end.

(** The shapes a decoded operand takes, each with the number it denotes.
    A finite non-zero operand has a significand [m] below
    [2 ^ (mbits + 1)], at least [2 ^ mbits] unless its exponent is the
    least one, and the exponent [k] counted from the least one. *)
Inductive denotes (fmt : Format) : spec_float → number → Prop :=
  | denotes_infinity s :
      denotes fmt (S754_infinity s)
              (if s then MinusInfinity else PlusInfinity)
  | denotes_zero s :
      denotes fmt (S754_zero s) (Finite 0)
  | denotes_finite s m k :
      0 < m < 2 ^ (mbits fmt + 1) → 0 <= k →
      (0 < k → 2 ^ mbits fmt <= m) →
      denotes fmt
              (S754_finite s (Z.to_pos m) (k + (1 - bias fmt - mbits fmt)))
              (Finite (if s then - (m * 2 ^ k) else m * 2 ^ k)).

(** ** Executions of several threads *)

(** What a thread does: a call of the API with its arguments, or its end. *)
Inductive event :=
  | Raise (flag : Z)
  | Test (flag : Z)
  | Clear (flag : Z)
  | GetAll
  | ClearAll
  | Compare (w : width) (p : predicate) (x y : Z)
  | SetRounding (mode : Z)
  | GetRounding
  | TestFpu
  | ClearFpu
  | Exit.

(** What an event does to the block of flags of the thread it is of. *)
Definition effect (c : event) (s : TES) : TES :=
  match c with
  | Raise flag => write_flag flag 1 s
  | Clear flag => write_flag flag 0 s
  | ClearAll => ThreadExceptionState.zero
  | Compare w _ x y =>
      if isnan (format_of w) x || isnan (format_of w) y
      then ThreadExceptionState.set_invalid 1 s else s
  | Exit => ThreadExceptionState.zero
  | _ => s
  end.

Section Threads.
Context {P : FenvH}.

Definition perform (c : event) : M unit :=
  match c with
  | Raise flag => ieee754_raise_exception flag
  | Test flag => ieee754_test_exception flag ;; mret ()
  | Clear flag => ieee754_clear_exception flag
  | GetAll => ieee754_get_exceptions ;; mret ()
  | ClearAll => ieee754_clear_all_exceptions
  | Compare w p x y => comparator w p x y ;; mret ()
  | SetRounding mode => ieee754_set_rounding_mode mode ;; mret ()
  | GetRounding => ieee754_get_rounding_mode ;; mret ()
  | TestFpu => ieee754_test_fpu_exceptions ;; mret ()
  | ClearFpu => ieee754_clear_fpu_exceptions
  | Exit => thread_exit
  end.

(** An execution of the process: the events of its threads, each with the
    thread it is of, in the order in which they take effect. *)
Fixpoint run (tr : list (nat * event)) (σ : Process) : option Process :=
  match tr with
  | [] => Some σ
  | (t, c) :: tr' =>
      match exec (perform c) t σ with
      | Some σ' => run tr' σ'
      | None => None
      end
  end.

End Threads.

(** The events of one thread in an execution. *)
Definition events_of (b : nat) (tr : list (nat * event))
  : list (nat * event) :=
  filter (λ e, e.1 = b) tr.

(** ** Concrete operands and states *)

(** Some [double] and [float] bit patterns. *)
Definition quiet_nan64 : Z := 0x7ff8000000000000.
Definition signaling_nan64 : Z := 0x7ff0000000000001.
Definition one64 : Z := 0x3ff0000000000000.
Definition two64 : Z := 0x4000000000000000.
Definition minus_infinity64 : Z := 0xfff0000000000000.
Definition quiet_nan32 : Z := 0x7fc00000.
Definition signaling_nan32 : Z := 0x7f800001.
Definition one32 : Z := 0x3f800000.

(** A native rounding control outside the four constants, as a platform
    extension would set it. *)
Definition extended_rounding : Process :=
  set_fenv (λ _, mkFEnv 0x1234 0) initial.

(** ** Further vocabulary *)

(** The process state with the block at [p] holding [s]. *)
Definition poke (p : positive) (s : TES) (σ : Process) : Process :=
  set_heap (<[p := s]> (heap σ)) σ.

(** The calling thread has its block, at [p] and holding [s]. *)
Definition settled (t : nat) (p : positive) (s : TES) (σ : Process) : Prop :=
  wf σ ∧ key_once σ = true ∧ specific σ !! t = Some p ∧ heap σ !! p = Some s.

(** [ieee754_raise_exception] or [ieee754_clear_exception], by the value
    written. *)
Definition write_exception (raise : bool) (flag : Z) : M unit :=
  if raise then ieee754_raise_exception flag
  else ieee754_clear_exception flag.

(** The field of a snapshot a flag identifier names; 0 for a value that
    names none, as [ieee754_test_exception] answers. *)
Definition field_of (flag : Z) (e : IEEE754Exceptions) : Z :=
  if flag =? IEEE754_EXCEPTION_INVALID then invalid e
  else if flag =? IEEE754_EXCEPTION_DIVBYZERO then divByZero e
  else if flag =? IEEE754_EXCEPTION_OVERFLOW then overflow e
  else if flag =? IEEE754_EXCEPTION_UNDERFLOW then underflow e
  else if flag =? IEEE754_EXCEPTION_INEXACT then inexact e
  else 0.

(** Every allocated block is the block of some thread. *)
Definition owned (σ : Process) : Prop :=
  ∀ p, is_Some (heap σ !! p) → ∃ t, specific σ !! t = Some p.

(** The events that can bring a software flag of their thread down. *)
Definition lowers (flag : Z) (c : event) : bool :=
  match c with
  | Clear g => g =? flag
  | ClearAll | Exit => true
  | _ => false
  end.

(** The events that can bring a hardware flag of their thread down, and
    those that can change its rounding direction. *)
Definition clears_hardware (c : event) : bool :=
  match c with ClearFpu => true | _ => false end.
Definition sets_rounding (c : event) : bool :=
  match c with SetRounding _ => true | _ => false end.

(** The events that touch the hardware flags at all. *)
Definition touches_hardware (c : event) : bool :=
  match c with ClearFpu | Compare _ _ _ _ => true | _ => false end.

Section Effects.
Context {P : FenvH}.

(** What an event does to the hardware flags and to the rounding control of
    the thread it is of. *)
Definition hardware_effect (c : event) (flags : Z) : Z :=
  match c with
  | Compare w _ x y =>
      if isnan (format_of w) x || isnan (format_of w) y
      then Z.lor flags FE_INVALID else flags
  | ClearFpu => Z.ldiff flags FE_ALL_EXCEPT
  | _ => flags
  end.

Definition rounding_effect (c : event) (round : Z) : Z :=
  match c with
  | SetRounding mode =>
      if fe_round_supported (ieee754_to_fe_round mode)
      then ieee754_to_fe_round mode else round
  | _ => round
  end.

(** [FE_INVALID] shares no bit with the other four exception macros. *)
Definition invalid_disjoint : Prop :=
  Z.land FE_INVALID FE_DIVBYZERO = 0 ∧ Z.land FE_INVALID FE_OVERFLOW = 0 ∧
  Z.land FE_INVALID FE_UNDERFLOW = 0 ∧ Z.land FE_INVALID FE_INEXACT = 0.

End Effects.

(** The answer of a predicate to the outcome of a comparison. *)
Definition answer (p : predicate) (c : comparison) : Z :=
  match p, c with
  | EQ, Eq | LT, Lt | LE, (Lt | Eq) | GT, Gt | GE, (Gt | Eq)
  | NE, (Lt | Gt) => 1
  | _, _ => 0
  end.

(** The operand lies within the width of the format. *)
Definition in_width (fmt : Format) (b : Z) : Prop :=
  0 <= b < 2 ^ (1 + ebits fmt + mbits fmt).

(** The operand is a zero, of either sign. *)
Definition is_zero (fmt : Format) (b : Z) : bool :=
  (biased_exponent fmt b =? 0) && (fraction fmt b =? 0).

(** The bit patterns of the two infinities. *)
Definition plus_infinity (fmt : Format) : Z :=
  Z.shiftl (Z.ones (ebits fmt)) (mbits fmt).
Definition minus_infinity (fmt : Format) : Z :=
  Z.lor (plus_infinity fmt) (Z.shiftl 1 (ebits fmt + mbits fmt)).

(** The operand without its sign bit, as an integer; the number an
    operand denotes without its sign; and the negation of a number. *)
Definition magnitude (fmt : Format) (b : Z) : Z :=
  2 ^ mbits fmt * biased_exponent fmt b + fraction fmt b.

Definition absolute (fmt : Format) (b : Z) : number :=
  let e := biased_exponent fmt b in
  let f := fraction fmt b in
  if e =? Z.ones (ebits fmt) then PlusInfinity
  else Finite ((if e =? 0 then f else f + 2 ^ mbits fmt)
               * 2 ^ (Z.max e 1 - 1)).

Definition negate (a : number) : number :=
  match a with
  | MinusInfinity => PlusInfinity
  | Finite n => Finite (- n)
  | PlusInfinity => MinusInfinity
  end.

(** The rounding direction a mode of [IEEE754RoundingMode] requests, as the
    header documents the enumeration (0 to nearest, 1 toward negative, 2
    toward positive, 3 toward zero): a table written apart from
    [ieee754_to_fe_round], against which the code is compared. A value that
    is not of the enumeration requests none. *)
Definition requested_direction `{FenvH} (mode : Z) : option Z :=
  if 0 <=? mode
  then [FE_TONEAREST; FE_DOWNWARD; FE_UPWARD; FE_TOWARDZERO]
         !! Z.to_nat mode
  else None.

(** The state in which thread 0 has its block, holding [s], as its calls
    leave it ([flags_state_reached]); and the state of a process that has
    called nothing in which floating-point arithmetic has left the given
    hardware flags. *)
Definition flags_state (s : TES) : Process :=
  mkProcess true {[0%nat := 1%positive]} {[1%positive := s]}
            (λ _, mkFEnv 0 0).

Definition hardware_state (flags : Z) : Process :=
  set_fenv (λ _, mkFEnv 0 flags) initial.

(** * Properties *)

Ltac munfold :=
  unfold mbind, M_bind, mret, M_ret, exec, eval in *.

Lemma wf_initial : wf initial.
Proof.
  split; simpl; [done | |]; intros; simplify_map_eq.
Qed.

Lemma wf_flags_state s : wf (flags_state s).
Proof.
  split; simpl; [done| |].
  - intros t p Hp. apply lookup_singleton_Some in Hp as [_ <-].
    by rewrite lookup_singleton_eq.
  - intros t1 t2 p H1 H2.
    apply lookup_singleton_Some in H1 as [<- _].
    by apply lookup_singleton_Some in H2 as [<- _].
Qed.

Lemma set_heap_id σ : set_heap (heap σ) σ = σ.
Proof. by destruct σ. Qed.

(** [get_thread_state] in closed form. *)
Lemma get_thread_state_unfold t σ :
  get_thread_state t σ =
    let σ0 := if key_once σ then σ
              else set_key_once true (set_specific ∅ σ) in
    match specific σ0 !! t with
    | Some p => Some (p, σ0)
    | None =>
        let p := fresh (dom (heap σ0)) in
        Some (p, set_specific (<[t := p]> (specific σ0))
                   (set_heap (<[p := ThreadExceptionState.zero]> (heap σ0)) σ0))
    end.
Proof.
  unfold get_thread_state, pthread_once, make_exception_key,
    pthread_key_create, pthread_getspecific, calloc, pthread_setspecific.
  munfold. destruct (key_once σ) eqn:Hk; simpl.
  - destruct (specific σ !! t); reflexivity.
  - rewrite lookup_empty. reflexivity.
Qed.

(** A thread that has its block gets it back, and nothing changes. *)
Lemma get_thread_state_settled t σ p :
  key_once σ = true → specific σ !! t = Some p →
  get_thread_state t σ = Some (p, σ).
Proof.
  intros Hk Hp. rewrite get_thread_state_unfold, Hk. simpl. by rewrite Hp.
Qed.

Lemma fresh_block_unallocated (h : gmap positive TES) :
  h !! fresh (dom h) = None.
Proof. apply not_elem_of_dom, is_fresh. Qed.

(** [get_thread_state] always yields a block on a well-formed state, holding
    the thread's flags. *)
Lemma get_thread_state_touched t σ :
  wf σ →
  ∃ p σ', get_thread_state t σ = Some (p, σ') ∧
          specific σ' !! t = Some p ∧
          touched t (flags_of t σ) σ σ'.
Proof.
  intros [Hkey Halloc Hinj]. rewrite get_thread_state_unfold.
  destruct (key_once σ) eqn:Hk; simpl.
  - destruct (specific σ !! t) as [p|] eqn:Hp.
    + exists p, σ. split_and!; [done..|]. unfold flags_of. rewrite Hp.
      destruct (Halloc _ _ Hp) as [s Hs]. rewrite Hs. simpl.
      split; [split; [congruence|done|done]|done|by exists p|done|done].
    + set (p := fresh (dom (heap σ))).
      assert (Hfresh : heap σ !! p = None) by apply fresh_block_unallocated.
      eexists p, _. split_and!; [done|simpl; by simplify_map_eq|].
      unfold flags_of at 1. rewrite Hp.
      split; simpl.
      * split; simpl; [intros; congruence | |].
        -- intros t' q Hq. destruct (decide (t' = t)) as [->|Hne];
             simplify_map_eq; [done|].
           destruct (Halloc _ _ Hq) as [s Hs].
           destruct (decide (q = p)) as [->|]; simplify_map_eq; done.
        -- intros t1 t2 q H1 H2.
           destruct (decide (t1 = t)) as [->|]; destruct (decide (t2 = t)) as [->|];
             simplify_map_eq; try done.
           ++ destruct (Halloc _ _ H2) as [s Hs]. congruence.
           ++ destruct (Halloc _ _ H1) as [s Hs]. congruence.
           ++ eauto.
      * done.
      * exists p. by simplify_map_eq.
      * intros t' Hne. unfold flags_of. simpl. rewrite lookup_insert_ne by done.
        destruct (specific σ !! t') as [q|] eqn:Hq; [|done].
        destruct (Halloc _ _ Hq) as [s Hs].
        destruct (decide (q = p)) as [->|]; [congruence|].
        by rewrite lookup_insert_ne.
      * done.
  - rewrite lookup_empty. specialize (Hkey eq_refl).
    set (p := fresh (dom (heap σ))).
    eexists p, _. split_and!; [done|simpl; by simplify_map_eq|].
    unfold flags_of at 1. rewrite Hkey, lookup_empty.
    split; simpl.
    + split; simpl; [intros; congruence | |].
      * intros t' q Hq. destruct (decide (t' = t)) as [->|Hne];
          simplify_map_eq. done.
      * intros t1 t2 q H1 H2.
        destruct (decide (t1 = t)) as [->|]; destruct (decide (t2 = t)) as [->|];
          simplify_map_eq; done.
    + done.
    + exists p. by simplify_map_eq.
    + intros t' Hne. unfold flags_of. simpl. rewrite lookup_insert_ne by done.
      by rewrite Hkey, !lookup_empty.
    + done.
Qed.

Lemma touched_flags t s σ σ' : touched t s σ σ' → flags_of t σ' = s.
Proof.
  intros [_ _ (p & Hp & Hs) _ _]. unfold flags_of. by rewrite Hp, Hs.
Qed.

(** Writing the block of [t] keeps the state well-formed and the other
    threads' flags in place. *)
Lemma touched_store t p s s' σ σ1 :
  touched t s σ σ1 → specific σ1 !! t = Some p →
  touched t s' σ (set_heap (<[p := s']> (heap σ1)) σ1).
Proof.
  intros [[Hkey Halloc Hinj] Honce (q & Hq & Hs) Hframe Hfenv] Hp.
  assert (q = p) as -> by congruence.
  split; simpl; [|done| |  |done].
  - split; simpl; [done| |done].
    intros t' r Hr. destruct (decide (r = p)) as [->|];
      simplify_map_eq; eauto.
  - exists p. by simplify_map_eq.
  - intros t' Hne. rewrite <- (Hframe t' Hne). unfold flags_of. simpl.
    destruct (specific σ1 !! t') as [r|] eqn:Hr; [|done].
    rewrite lookup_insert_ne; [done|]. intros ->. apply Hne. eauto.
Qed.

Lemma load_run t p s σ :
  heap σ !! p = Some s → load p t σ = Some (s, σ).
Proof. unfold load. intros ->. reflexivity. Qed.

Lemma store_run t p s s' σ :
  heap σ !! p = Some s →
  store p s' t σ = Some ((), set_heap (<[p := s']> (heap σ)) σ).
Proof. unfold store. intros ->. reflexivity. Qed.

Lemma assign_run t p set v s σ :
  heap σ !! p = Some s →
  assign p set v t σ = Some ((), set_heap (<[p := set v s]> (heap σ)) σ).
Proof.
  intros Hs. unfold assign. munfold.
  rewrite (load_run _ _ _ _ Hs). by apply store_run with s.
Qed.

(** A function that fetches the block and then stores into it. *)
Lemma write_run (s' : TES → TES) (body : positive → M unit) t σ :
  (∀ p s σ1, heap σ1 !! p = Some s →
     body p t σ1 = Some ((), set_heap (<[p := s' s]> (heap σ1)) σ1)) →
  wf σ →
  ∃ σ', (get_thread_state ≫= body) t σ = Some ((), σ') ∧
        touched t (s' (flags_of t σ)) σ σ'.
Proof.
  intros Hbody Hwf.
  destruct (get_thread_state_touched t σ Hwf) as (p & σ1 & Hget & Hp & Ht).
  munfold. rewrite Hget.
  destruct (touched_block _ _ _ _ Ht) as (q & Hq & Hs).
  assert (q = p) as -> by congruence.
  rewrite (Hbody _ _ _ Hs).
  eexists; split; [done|]. by eapply touched_store.
Qed.

Lemma raise_body_run flag t p s σ1 :
  heap σ1 !! p = Some s →
  (if flag =? IEEE754_EXCEPTION_INVALID then
     assign p ThreadExceptionState.set_invalid 1
   else if flag =? IEEE754_EXCEPTION_DIVBYZERO then
     assign p ThreadExceptionState.set_divByZero 1
   else if flag =? IEEE754_EXCEPTION_OVERFLOW then
     assign p ThreadExceptionState.set_overflow 1
   else if flag =? IEEE754_EXCEPTION_UNDERFLOW then
     assign p ThreadExceptionState.set_underflow 1
   else if flag =? IEEE754_EXCEPTION_INEXACT then
     assign p ThreadExceptionState.set_inexact 1
   else mret ()) t σ1 =
  Some ((), set_heap (<[p := write_flag flag 1 s]> (heap σ1)) σ1).
Proof.
  intros Hs. unfold write_flag.
  repeat (case_match; [by apply assign_run|]).
  munfold. by rewrite insert_id, set_heap_id.
Qed.

Lemma clear_body_run flag t p s σ1 :
  heap σ1 !! p = Some s →
  (if flag =? IEEE754_EXCEPTION_INVALID then
     assign p ThreadExceptionState.set_invalid 0
   else if flag =? IEEE754_EXCEPTION_DIVBYZERO then
     assign p ThreadExceptionState.set_divByZero 0
   else if flag =? IEEE754_EXCEPTION_OVERFLOW then
     assign p ThreadExceptionState.set_overflow 0
   else if flag =? IEEE754_EXCEPTION_UNDERFLOW then
     assign p ThreadExceptionState.set_underflow 0
   else if flag =? IEEE754_EXCEPTION_INEXACT then
     assign p ThreadExceptionState.set_inexact 0
   else mret ()) t σ1 =
  Some ((), set_heap (<[p := write_flag flag 0 s]> (heap σ1)) σ1).
Proof.
  intros Hs. unfold write_flag.
  repeat (case_match; [by apply assign_run|]).
  munfold. by rewrite insert_id, set_heap_id.
Qed.

(** *** What each function of [tls_exceptions.c] does *)

Lemma raise_run t flag σ :
  wf σ →
  ∃ σ', ieee754_raise_exception flag t σ = Some ((), σ') ∧
        touched t (write_flag flag 1 (flags_of t σ)) σ σ'.
Proof.
  intros Hwf. apply (write_run (write_flag flag 1)); [|done].
  intros. by apply raise_body_run.
Qed.

Lemma clear_run t flag σ :
  wf σ →
  ∃ σ', ieee754_clear_exception flag t σ = Some ((), σ') ∧
        touched t (write_flag flag 0 (flags_of t σ)) σ σ'.
Proof.
  intros Hwf. apply (write_run (write_flag flag 0)); [|done].
  intros. by apply clear_body_run.
Qed.

Lemma clear_all_run t σ :
  wf σ →
  ∃ σ', ieee754_clear_all_exceptions t σ = Some ((), σ') ∧
        touched t ThreadExceptionState.zero σ σ'.
Proof.
  intros Hwf. apply (write_run (λ _, ThreadExceptionState.zero)); [|done].
  intros p s σ1 Hs. by apply store_run with s.
Qed.

Lemma test_run t flag σ :
  wf σ →
  ∃ σ', ieee754_test_exception flag t σ
          = Some (read_flag flag (flags_of t σ), σ') ∧
        touched t (flags_of t σ) σ σ'.
Proof.
  intros Hwf.
  destruct (get_thread_state_touched t σ Hwf) as (p & σ1 & Hget & Hp & Ht).
  exists σ1. split; [|done].
  destruct (touched_block _ _ _ _ Ht) as (q & Hq & Hs).
  assert (q = p) as -> by congruence.
  unfold ieee754_test_exception, read_flag. munfold. rewrite Hget.
  repeat (case_match; [by rewrite (load_run _ _ _ _ Hs)|]). done.
Qed.

Lemma get_exceptions_run t σ :
  wf σ →
  ∃ σ', ieee754_get_exceptions t σ = Some (snapshot (flags_of t σ), σ') ∧
        touched t (flags_of t σ) σ σ'.
Proof.
  intros Hwf.
  destruct (get_thread_state_touched t σ Hwf) as (p & σ1 & Hget & Hp & Ht).
  exists σ1. split; [|done].
  destruct (touched_block _ _ _ _ Ht) as (q & Hq & Hs).
  assert (q = p) as -> by congruence.
  unfold ieee754_get_exceptions. munfold.
  by rewrite Hget, (load_run _ _ _ _ Hs).
Qed.

(** Once a thread has its block, a flag-writing function is one store. *)
Lemma write_settled (s' : TES → TES) (body : positive → M unit) t p s σ :
  (∀ p s σ1, heap σ1 !! p = Some s →
     body p t σ1 = Some ((), set_heap (<[p := s' s]> (heap σ1)) σ1)) →
  key_once σ = true → specific σ !! t = Some p → heap σ !! p = Some s →
  (get_thread_state ≫= body) t σ
    = Some ((), set_heap (<[p := s' s]> (heap σ)) σ).
Proof.
  intros Hbody Hk Hp Hs. munfold.
  by rewrite (get_thread_state_settled _ _ _ Hk Hp), (Hbody _ _ _ Hs).
Qed.

Lemma eval_seq {A B} (m1 : M A) (m2 : M B) t σ a σ1 :
  m1 t σ = Some (a, σ1) → eval (m1 ;; m2) t σ = eval m2 t σ1.
Proof. intros H. munfold. by rewrite H. Qed.

Lemma exec_seq {A B} (m1 : M A) (m2 : M B) t σ a σ1 :
  m1 t σ = Some (a, σ1) → exec (m1 ;; m2) t σ = exec m2 t σ1.
Proof. intros H. munfold. by rewrite H. Qed.

Lemma write_flag_twice flag v s :
  write_flag flag v (write_flag flag v s) = write_flag flag v s.
Proof. unfold write_flag. by repeat case_match. Qed.

Lemma write_flag_same flag s :
  write_flag flag (read_flag flag s) s = s.
Proof. unfold write_flag, read_flag. destruct s. by repeat case_match. Qed.

Lemma read_write_flag flag g v s :
  defined_flag flag →
  read_flag g (write_flag flag v s)
    = if decide (g = flag) then v else read_flag g s.
Proof.
  unfold defined_flag, read_flag, write_flag,
    IEEE754_EXCEPTION_INVALID, IEEE754_EXCEPTION_DIVBYZERO,
    IEEE754_EXCEPTION_OVERFLOW, IEEE754_EXCEPTION_UNDERFLOW,
    IEEE754_EXCEPTION_INEXACT.
  intros Hf. case_decide; repeat case_match; simpl; try done; lia.
Qed.

Lemma write_flag_undefined flag v s :
  ¬ defined_flag flag → write_flag flag v s = s.
Proof.
  unfold defined_flag, write_flag,
    IEEE754_EXCEPTION_INVALID, IEEE754_EXCEPTION_DIVBYZERO,
    IEEE754_EXCEPTION_OVERFLOW, IEEE754_EXCEPTION_UNDERFLOW,
    IEEE754_EXCEPTION_INEXACT.
  intros Hf. repeat case_match; try done; lia.
Qed.

Lemma read_flag_undefined flag s :
  ¬ defined_flag flag → read_flag flag s = 0.
Proof.
  unfold defined_flag, read_flag,
    IEEE754_EXCEPTION_INVALID, IEEE754_EXCEPTION_DIVBYZERO,
    IEEE754_EXCEPTION_OVERFLOW, IEEE754_EXCEPTION_UNDERFLOW,
    IEEE754_EXCEPTION_INEXACT.
  intros Hf. repeat case_match; try done; lia.
Qed.

Lemma eval_test t flag σ :
  wf σ →
  eval (ieee754_test_exception flag) t σ
    = Some (read_flag flag (flags_of t σ)).
Proof.
  intros Hwf. destruct (test_run t flag σ Hwf) as (σ' & Hrun & _).
  unfold eval. by rewrite Hrun.
Qed.

Lemma eval_get_exceptions t σ :
  wf σ →
  eval ieee754_get_exceptions t σ = Some (snapshot (flags_of t σ)).
Proof.
  intros Hwf. destruct (get_exceptions_run t σ Hwf) as (σ' & Hrun & _).
  unfold eval. by rewrite Hrun.
Qed.

(** ** The software exception store *)

(** C7. Raising a flag twice leaves the very process state that raising it
    once leaves. Clearing a flag that a test has just reported clear leaves
    the process state as it is; and clearing a flag that is clear never
    changes what [ieee754_get_exceptions] returns, also when the clear is
    the thread's first access and creates its block. This holds for every
    flag value, the five identifiers included. *)
Theorem raise_and_clear_idempotent (t : nat) (flag : Z) (σ : Process) :
  wf σ →
  (∃ σ1, exec (ieee754_raise_exception flag) t σ = Some σ1 ∧
         exec (ieee754_raise_exception flag ;;
               ieee754_raise_exception flag) t σ = Some σ1) ∧
  (∀ σ0, ieee754_test_exception flag t σ = Some (0, σ0) →
         exec (ieee754_clear_exception flag) t σ0 = Some σ0) ∧
  (eval (ieee754_test_exception flag) t σ = Some 0 →
   is_Some (eval ieee754_get_exceptions t σ) ∧
   eval (ieee754_clear_exception flag ;; ieee754_get_exceptions) t σ
     = eval ieee754_get_exceptions t σ).
Proof.
  intros Hwf. split_and!.
  - destruct (raise_run t flag σ Hwf) as (σ1 & Hrun & Ht).
    exists σ1. split; [unfold exec; by rewrite Hrun|].
    rewrite (exec_seq _ _ _ _ _ _ Hrun).
    destruct (touched_block _ _ _ _ Ht) as (p & Hp & Hs).
    unfold exec, ieee754_raise_exception.
    rewrite (write_settled (write_flag flag 1) _ t p _ σ1
               (λ _ _ _ H, raise_body_run flag t _ _ _ H)
               (touched_once _ _ _ _ Ht) Hp Hs).
    simpl. by rewrite write_flag_twice, insert_id, set_heap_id.
  - intros σ0 Htest.
    destruct (test_run t flag σ Hwf) as (σ' & Hrun & Ht).
    rewrite Hrun in Htest. injection Htest as Hread <-.
    destruct (touched_block _ _ _ _ Ht) as (p & Hp & Hs).
    unfold exec, ieee754_clear_exception.
    rewrite (write_settled (write_flag flag 0) _ t p _ σ'
               (λ _ _ _ H, clear_body_run flag t _ _ _ H)
               (touched_once _ _ _ _ Ht) Hp Hs).
    simpl. rewrite <- Hread at 1.
    by rewrite write_flag_same, insert_id, set_heap_id.
  - rewrite (eval_test _ _ _ Hwf). intros [= Hread].
    rewrite (eval_get_exceptions _ _ Hwf). split; [done|].
    destruct (clear_run t flag σ Hwf) as (σ1 & Hrun & Ht).
    rewrite (eval_seq _ _ _ _ _ _ Hrun),
      (eval_get_exceptions _ _ (touched_wf _ _ _ _ Ht)),
      (touched_flags _ _ _ _ Ht).
    rewrite <- Hread at 1. by rewrite write_flag_same.
Qed.

Lemma raise_and_clear_idempotent_witness :
  wf initial ∧
  (∃ σ1, exec (ieee754_raise_exception IEEE754_EXCEPTION_OVERFLOW) 0%nat
           initial = Some σ1 ∧
         exec (ieee754_raise_exception IEEE754_EXCEPTION_OVERFLOW ;;
               ieee754_raise_exception IEEE754_EXCEPTION_OVERFLOW) 0%nat
           initial = Some σ1) ∧
  eval (ieee754_test_exception IEEE754_EXCEPTION_OVERFLOW) 0%nat initial
    = Some 0 ∧
  eval (ieee754_clear_exception IEEE754_EXCEPTION_OVERFLOW ;;
        ieee754_get_exceptions) 0%nat initial
    = eval ieee754_get_exceptions 0%nat initial.
Proof.
  assert (Hclear : eval (ieee754_test_exception IEEE754_EXCEPTION_OVERFLOW)
                     0%nat initial = Some 0) by reflexivity.
  pose proof (raise_and_clear_idempotent 0%nat IEEE754_EXCEPTION_OVERFLOW
                initial wf_initial) as (Hraise & _ & Hsame).
  split; [exact wf_initial|]. split; [exact Hraise|].
  split; [exact Hclear|]. exact (proj2 (Hsame Hclear)).
Defined.

(** C8. Raising one of the five flags makes a following test of that flag
    return 1 and leaves what a test of any other flag returns as it was.
    After [ieee754_clear_all_exceptions], raising [DIVBYZERO] and taking the
    snapshot gives [{0, 1, 0, 0, 0}]; right after
    [ieee754_clear_all_exceptions] the snapshot is all zero. *)
Theorem raise_sets_exactly_its_flag (t : nat) (flag : Z) (σ : Process) :
  wf σ → defined_flag flag →
  (∀ g, eval (ieee754_raise_exception flag ;;
              ieee754_test_exception g) t σ
        = if decide (g = flag) then Some 1
          else eval (ieee754_test_exception g) t σ) ∧
  (∀ g, g ≠ flag → is_Some (eval (ieee754_test_exception g) t σ)) ∧
  eval (ieee754_clear_all_exceptions ;;
        ieee754_raise_exception IEEE754_EXCEPTION_DIVBYZERO ;;
        ieee754_get_exceptions) t σ
    = Some {| invalid := 0; divByZero := 1; overflow := 0;
              underflow := 0; inexact := 0 |} ∧
  eval (ieee754_clear_all_exceptions ;; ieee754_get_exceptions) t σ
    = Some {| invalid := 0; divByZero := 0; overflow := 0;
              underflow := 0; inexact := 0 |}.
Proof.
  intros Hwf Hflag. split_and!.
  - intros g. destruct (raise_run t flag σ Hwf) as (σ1 & Hrun & Ht).
    rewrite (eval_seq _ _ _ _ _ _ Hrun),
      (eval_test _ _ _ (touched_wf _ _ _ _ Ht)),
      (touched_flags _ _ _ _ Ht), (eval_test _ _ _ Hwf),
      (read_write_flag _ _ _ _ Hflag).
    by case_decide.
  - intros g _. by rewrite (eval_test _ _ _ Hwf).
  - destruct (clear_all_run t σ Hwf) as (σ1 & Hrun1 & Ht1).
    rewrite (eval_seq _ _ _ _ _ _ Hrun1).
    destruct (raise_run t IEEE754_EXCEPTION_DIVBYZERO σ1
                (touched_wf _ _ _ _ Ht1)) as (σ2 & Hrun2 & Ht2).
    rewrite (eval_seq _ _ _ _ _ _ Hrun2),
      (eval_get_exceptions _ _ (touched_wf _ _ _ _ Ht2)),
      (touched_flags _ _ _ _ Ht2), (touched_flags _ _ _ _ Ht1).
    reflexivity.
  - destruct (clear_all_run t σ Hwf) as (σ1 & Hrun1 & Ht1).
    rewrite (eval_seq _ _ _ _ _ _ Hrun1),
      (eval_get_exceptions _ _ (touched_wf _ _ _ _ Ht1)),
      (touched_flags _ _ _ _ Ht1).
    reflexivity.
Qed.

Lemma raise_sets_exactly_its_flag_witness :
  wf initial ∧ defined_flag IEEE754_EXCEPTION_DIVBYZERO ∧
  eval (ieee754_clear_all_exceptions ;;
        ieee754_raise_exception IEEE754_EXCEPTION_DIVBYZERO ;;
        ieee754_get_exceptions) 0%nat initial
    = Some {| invalid := 0; divByZero := 1; overflow := 0;
              underflow := 0; inexact := 0 |}.
Proof.
  assert (Hflag : defined_flag IEEE754_EXCEPTION_DIVBYZERO)
    by (unfold defined_flag, IEEE754_EXCEPTION_DIVBYZERO; lia).
  split_and!; [exact wf_initial|exact Hflag|].
  exact (proj1 (proj2 (proj2
           (raise_sets_exactly_its_flag 0%nat IEEE754_EXCEPTION_DIVBYZERO
              initial wf_initial Hflag)))).
Defined.

(** C10. For a flag value outside 0..4, on every well-formed state:
    [ieee754_test_exception] returns 0, and [ieee754_raise_exception] and
    [ieee754_clear_exception] return and leave the snapshot of the calling
    thread's five flags as it was. *)
Theorem undefined_flag_inert (t : nat) (flag : Z) (σ : Process) :
  wf σ → ¬ defined_flag flag →
  eval (ieee754_test_exception flag) t σ = Some 0 ∧
  ∃ e, eval ieee754_get_exceptions t σ = Some e ∧
       eval (ieee754_raise_exception flag ;;
             ieee754_get_exceptions) t σ = Some e ∧
       eval (ieee754_clear_exception flag ;;
             ieee754_get_exceptions) t σ = Some e.
Proof.
  intros Hwf Hflag. split.
  - by rewrite (eval_test _ _ _ Hwf), read_flag_undefined.
  - exists (snapshot (flags_of t σ)). split_and!.
    + by apply eval_get_exceptions.
    + destruct (raise_run t flag σ Hwf) as (σ1 & Hrun & Ht).
      by rewrite (eval_seq _ _ _ _ _ _ Hrun),
        (eval_get_exceptions _ _ (touched_wf _ _ _ _ Ht)),
        (touched_flags _ _ _ _ Ht), write_flag_undefined.
    + destruct (clear_run t flag σ Hwf) as (σ1 & Hrun & Ht).
      by rewrite (eval_seq _ _ _ _ _ _ Hrun),
        (eval_get_exceptions _ _ (touched_wf _ _ _ _ Ht)),
        (touched_flags _ _ _ _ Ht), write_flag_undefined.
Qed.

Lemma undefined_flag_inert_witness :
  wf initial ∧ ¬ defined_flag 5 ∧
  eval (ieee754_test_exception 5) 0%nat initial = Some 0.
Proof.
  assert (Hflag : ¬ defined_flag 5) by (unfold defined_flag; lia).
  split_and!; [exact wf_initial|exact Hflag|].
  exact (proj1 (undefined_flag_inert 0%nat 5 initial wf_initial Hflag)).
Defined.

(** ** Rounding control *)

Section Rounding.
Context {P : FenvH}.

Lemma fe_round_ne :
  round_macros_distinct →
  FE_TONEAREST ≠ FE_DOWNWARD ∧ FE_TONEAREST ≠ FE_UPWARD ∧
  FE_TONEAREST ≠ FE_TOWARDZERO ∧ FE_DOWNWARD ≠ FE_UPWARD ∧
  FE_DOWNWARD ≠ FE_TOWARDZERO ∧ FE_UPWARD ≠ FE_TOWARDZERO.
Proof.
  unfold round_macros_distinct. intros Hd.
  repeat (apply NoDup_cons in Hd as [? Hd]).
  repeat match goal with
         | H : _ ∉ _ :: _ |- _ => apply not_elem_of_cons in H as [? H]
         end.
  by split_and!.
Qed.

Lemma to_fe_round_supported (mode : Z) :
  round_macros_supported →
  fe_round_supported (ieee754_to_fe_round mode) = true.
Proof.
  unfold round_macros_supported. intros Hs.
  repeat (apply Forall_cons in Hs as [? Hs]).
  unfold ieee754_to_fe_round. by repeat case_match.
Qed.

Lemma fe_round_inverse (mode : Z) :
  round_macros_distinct → 0 <= mode <= 3 →
  fe_round_to_ieee754 (ieee754_to_fe_round mode) = mode.
Proof.
  intros Hd Hm. destruct (fe_round_ne Hd) as (? & ? & ? & ? & ? & ?).
  assert (mode = 0 ∨ mode = 1 ∨ mode = 2 ∨ mode = 3)
    as [-> | [-> | [-> | ->]]] by lia;
    unfold ieee754_to_fe_round, fe_round_to_ieee754; simpl;
    repeat (case_match; try reflexivity);
    repeat match goal with
           | H : (_ =? _) = true |- _ => apply Z.eqb_eq in H
           | H : (_ =? _) = false |- _ => apply Z.eqb_neq in H
           end; congruence.
Qed.

Lemma set_rounding_mode_run t mode σ :
  ieee754_set_rounding_mode mode t σ =
    if fe_round_supported (ieee754_to_fe_round mode)
    then Some (0, set_fenv (<[t := mkFEnv (ieee754_to_fe_round mode)
                                      (fe_except (fenv σ t))]> (fenv σ)) σ)
    else Some (fe_round_refused, σ).
Proof. reflexivity. Qed.

(** C4. On a platform whose four rounding macros are distinct and
    supported, for each of the four modes (0..3):
    [ieee754_set_rounding_mode] succeeds, [ieee754_get_rounding_mode]
    called right after it returns the mode, and the two mapping functions
    are inverse to each other. *)
Theorem rounding_round_trip (t : nat) (mode : Z) (σ : Process) :
  round_macros_distinct → round_macros_supported →
  0 <= mode <= 3 →
  eval (ieee754_set_rounding_mode mode) t σ = Some 0 ∧
  eval (ieee754_set_rounding_mode mode ;;
        ieee754_get_rounding_mode) t σ = Some mode ∧
  fe_round_to_ieee754 (ieee754_to_fe_round mode) = mode.
Proof.
  intros Hd Hs Hm. pose proof (fe_round_inverse mode Hd Hm) as Hinv.
  pose proof (to_fe_round_supported mode Hs) as Hsup.
  unfold eval. munfold. rewrite set_rounding_mode_run, Hsup.
  unfold ieee754_get_rounding_mode, fegetround. munfold. simpl.
  rewrite fn_lookup_insert. simpl. by rewrite Hinv.
Qed.

(** C5. [ieee754_get_rounding_mode] always returns, and returns one of the
    four enumeration values; when the native rounding control is none of
    the four [FE_] constants it returns [IEEE754_ROUND_TONEAREST]. *)
Theorem get_rounding_mode_total (t : nat) (σ : Process) :
  ∃ mode, eval ieee754_get_rounding_mode t σ = Some mode ∧
          0 <= mode <= 3 ∧
          (fe_round (fenv σ t)
             ∉ [FE_TONEAREST; FE_DOWNWARD; FE_UPWARD; FE_TOWARDZERO] →
           mode = IEEE754_ROUND_TONEAREST).
Proof.
  eexists. split; [reflexivity|]. unfold fe_round_to_ieee754.
  split.
  - repeat case_match; done.
  - intros Hout.
    repeat (case_match;
            [exfalso; apply Hout;
             match goal with
             | H : (_ =? _) = true |- _ => apply Z.eqb_eq in H; rewrite H
             end; set_solver|]).
    reflexivity.
Qed.

Lemma requested_direction_mapped (mode d : Z) :
  requested_direction mode = Some d →
  0 <= mode <= 3 ∧ ieee754_to_fe_round mode = d.
Proof.
  unfold requested_direction. destruct (Z.leb_spec 0 mode); [|done].
  intros Hd. pose proof (lookup_lt_Some _ _ _ Hd) as Hlt. simpl in Hlt.
  assert (mode = 0 ∨ mode = 1 ∨ mode = 2 ∨ mode = 3)
    as [-> | [-> | [-> | ->]]] by lia;
    simpl in Hd; injection Hd as <-; by split.
Qed.

(** C6. For each of the four modes, with [d] the direction of [<fenv.h>]
    the mode requests ([requested_direction], a table written apart from
    the code's mapping): [ieee754_set_rounding_mode] returns a non-zero
    value exactly when the platform's [fesetround] does not support [d],
    and then leaves the state as it was; when it returns 0, [d] is the
    rounding control of the thread; and on a platform that supports the
    four rounding macros it returns 0. *)
Theorem set_rounding_mode_error (t : nat) (mode d : Z) (σ : Process) :
  refusal_nonzero → requested_direction mode = Some d →
  ∃ r σ', ieee754_set_rounding_mode mode t σ = Some (r, σ') ∧
          (r ≠ 0 ↔ fe_round_supported d = false) ∧
          (r ≠ 0 → σ' = σ) ∧
          (r = 0 → fe_round (fenv σ' t) = d) ∧
          (round_macros_supported → r = 0).
Proof.
  intros Hnz Hd.
  destruct (requested_direction_mapped mode d Hd) as [Hm Hto].
  rewrite set_rounding_mode_run.
  pose proof (to_fe_round_supported mode) as Hall. rewrite Hto in *.
  destruct (fe_round_supported d) eqn:Hs.
  - eexists _, _. split; [reflexivity|]. split_and!; [|done| |done].
    + split; [done|discriminate].
    + intros _. simpl. by rewrite fn_lookup_insert.
  - eexists _, _. split; [reflexivity|]. split_and!; [done|done| |].
    + intros Hr. by destruct Hnz.
    + intros Hsup. specialize (Hall Hsup). congruence.
Qed.

End Rounding.

Lemma glibc_round_macros_distinct : @round_macros_distinct glibc_x86_64.
Proof. apply (bool_decide_unpack _). reflexivity. Qed.

Lemma glibc_round_macros_supported : @round_macros_supported glibc_x86_64.
Proof.
  unfold round_macros_supported. simpl. repeat constructor.
Qed.

Lemma rounding_round_trip_witness :
  @round_macros_distinct glibc_x86_64 ∧
  @round_macros_supported glibc_x86_64 ∧
  0 <= IEEE754_ROUND_UPWARD <= 3 ∧
  eval (ieee754_set_rounding_mode (P := glibc_x86_64) IEEE754_ROUND_UPWARD ;;
        ieee754_get_rounding_mode (P := glibc_x86_64)) 0%nat initial
    = Some IEEE754_ROUND_UPWARD.
Proof.
  assert (Hm : 0 <= IEEE754_ROUND_UPWARD <= 3)
    by (unfold IEEE754_ROUND_UPWARD; lia).
  split; [exact glibc_round_macros_distinct|].
  split; [exact glibc_round_macros_supported|].
  split; [exact Hm|].
  exact (proj1 (proj2
           (rounding_round_trip (P := glibc_x86_64) 0%nat IEEE754_ROUND_UPWARD
              initial glibc_round_macros_distinct
              glibc_round_macros_supported Hm))).
Defined.

Lemma get_rounding_mode_total_witness :
  (0x1234 ∉ [0; 0x400; 0x800; 0xc00]) ∧
  eval (ieee754_get_rounding_mode (P := glibc_x86_64)) 0%nat
    extended_rounding = Some IEEE754_ROUND_TONEAREST.
Proof.
  assert (Hout : 0x1234 ∉ [0; 0x400; 0x800; 0xc00])
    by (apply (bool_decide_unpack _); reflexivity).
  split; [exact Hout|].
  destruct (get_rounding_mode_total (P := glibc_x86_64) 0%nat
              extended_rounding) as (mode & Hget & _ & Hdefault).
  rewrite Hget. f_equal. exact (Hdefault Hout).
Defined.

Lemma set_rounding_mode_error_witness :
  (@refusal_nonzero nearest_only ∧
   @requested_direction nearest_only IEEE754_ROUND_TONEAREST = Some 0 ∧
   @fe_round_supported nearest_only 0 = true ∧
   eval (ieee754_set_rounding_mode (P := nearest_only)
           IEEE754_ROUND_TONEAREST) 0%nat extended_rounding = Some 0) ∧
  (@requested_direction nearest_only IEEE754_ROUND_UPWARD = Some 0x800 ∧
   @fe_round_supported nearest_only 0x800 = false ∧
   ∃ r, ieee754_set_rounding_mode (P := nearest_only) IEEE754_ROUND_UPWARD
          0%nat extended_rounding = Some (r, extended_rounding) ∧ r ≠ 0) ∧
  (@refusal_nonzero glibc_x86_64 ∧ @round_macros_supported glibc_x86_64 ∧
   @requested_direction glibc_x86_64 IEEE754_ROUND_UPWARD = Some 0x800 ∧
   ∃ σ', ieee754_set_rounding_mode (P := glibc_x86_64) IEEE754_ROUND_UPWARD
           0%nat extended_rounding = Some (0, σ') ∧
         fe_round (fenv σ' 0%nat) = 0x800).
Proof.
  assert (Hg : @refusal_nonzero glibc_x86_64) by discriminate.
  assert (Hn : @refusal_nonzero nearest_only) by discriminate.
  assert (Hdn : @requested_direction nearest_only IEEE754_ROUND_TONEAREST
                = Some 0) by reflexivity.
  assert (Hdu : @requested_direction nearest_only IEEE754_ROUND_UPWARD
                = Some 0x800) by reflexivity.
  assert (Hdg : @requested_direction glibc_x86_64 IEEE754_ROUND_UPWARD
                = Some 0x800) by reflexivity.
  assert (Hsn : @fe_round_supported nearest_only 0 = true) by reflexivity.
  assert (Hsu : @fe_round_supported nearest_only 0x800 = false)
    by reflexivity.
  split; [|split].
  - split; [exact Hn|]. split; [exact Hdn|]. split; [exact Hsn|].
    destruct (set_rounding_mode_error (P := nearest_only) 0%nat
                IEEE754_ROUND_TONEAREST 0 extended_rounding Hn Hdn)
      as (r & σ' & Hrun & Hiff & _).
    unfold eval. rewrite Hrun. simpl. f_equal.
    destruct (Z.eq_dec r 0) as [Hr|Hr]; [exact Hr|].
    pose proof (proj1 Hiff Hr) as Hno. rewrite Hsn in Hno. discriminate.
  - split; [exact Hdu|]. split; [exact Hsu|].
    destruct (set_rounding_mode_error (P := nearest_only) 0%nat
                IEEE754_ROUND_UPWARD 0x800 extended_rounding Hn Hdu)
      as (r & σ' & Hrun & Hiff & Hsame & _).
    exists r. rewrite Hrun. pose proof (proj2 Hiff Hsu) as Hr.
    split; [by rewrite (Hsame Hr)|exact Hr].
  - split; [exact Hg|]. split; [exact glibc_round_macros_supported|].
    split; [exact Hdg|].
    destruct (set_rounding_mode_error (P := glibc_x86_64) 0%nat
                IEEE754_ROUND_UPWARD 0x800 extended_rounding Hg Hdg)
      as (r & σ' & Hrun & _ & _ & Hdir & Hok).
    exists σ'. pose proof (Hok glibc_round_macros_supported) as Hr.
    split; [by rewrite Hrun, Hr|exact (Hdir Hr)].
Defined.

(** Where [fesetround] refuses the upward direction the call reports the
    error and changes nothing; on glibc it succeeds. *)
Example set_rounding_mode_refused :
  ieee754_set_rounding_mode (P := nearest_only) IEEE754_ROUND_UPWARD
    0%nat initial = Some (1, initial).
Proof. reflexivity. Qed.

Example set_rounding_mode_accepted :
  eval (ieee754_set_rounding_mode (P := glibc_x86_64) IEEE754_ROUND_UPWARD)
    0%nat initial = Some 0.
Proof. reflexivity. Qed.

(** ** Operands and the C comparisons *)

Section BinaryFacts.
Variable fmt : Format.
Hypothesis mbits_nonneg : 0 <= mbits fmt.
Hypothesis ebits_nonneg : 0 <= ebits fmt.

Lemma fraction_range b : 0 <= fraction fmt b < 2 ^ mbits fmt.
Proof.
  unfold fraction. rewrite Z.land_ones by done.
  apply Z.mod_pos_bound. by apply Z.pow_pos_nonneg.
Qed.

Lemma biased_exponent_range b :
  0 <= biased_exponent fmt b <= Z.ones (ebits fmt).
Proof.
  unfold biased_exponent. rewrite Z.land_ones, Z.ones_equiv by done.
  pose proof (Z.mod_pos_bound (b ≫ mbits fmt) (2 ^ ebits fmt)
                (Z.pow_pos_nonneg 2 _ eq_refl ebits_nonneg)).
  lia.
Qed.

(** A NaN is quiet or signaling, and nothing else is either. *)
Lemma isnan_quiet_or_signaling b :
  isnan fmt b = is_quiet_nan fmt b || is_signaling_nan fmt b.
Proof.
  unfold is_quiet_nan, is_signaling_nan.
  destruct (isnan fmt b), (Z.testbit b (mbits fmt - 1)); reflexivity.
Qed.

Lemma isnan_decode b : isnan fmt b = true ↔ decode fmt b = S754_nan.
Proof.
  unfold isnan, decode.
  destruct (biased_exponent fmt b =? Z.ones (ebits fmt));
    destruct (fraction fmt b =? 0);
    destruct (biased_exponent fmt b =? 0); simpl; split; congruence.
Qed.

End BinaryFacts.

(** The magnitude of a finite operand with significand [m] and exponent
    offset [k], against that of another, is decided by the exponents first
    and the significands next, as [SFcompare] decides it. *)
Lemma magnitude_compare (mb m1 m2 k1 k2 : Z) :
  0 <= mb → 0 <= k1 → 0 <= k2 →
  0 < m1 < 2 ^ (mb + 1) → 0 < m2 < 2 ^ (mb + 1) →
  (0 < k1 → 2 ^ mb <= m1) → (0 < k2 → 2 ^ mb <= m2) →
  match k1 ?= k2 with
  | Eq => m1 ?= m2
  | c => c
  end = (m1 * 2 ^ k1 ?= m2 * 2 ^ k2).
Proof.
  intros Hmb Hk1 Hk2 Hm1 Hm2 Hn1 Hn2.
  assert (Hlt : ∀ a b ka kb, 0 <= ka < kb → 0 < a < 2 ^ (mb + 1) →
                  2 ^ mb <= b → a * 2 ^ ka < b * 2 ^ kb).
  { intros a b ka kb Hk Ha Hb.
    replace kb with ((kb - ka - 1) + 1 + ka) by lia.
    rewrite !Z.pow_add_r by lia.
    assert (0 < 2 ^ ka) by (apply Z.pow_pos_nonneg; lia).
    assert (1 <= 2 ^ (kb - ka - 1))
      by (change 1 with (2 ^ 0); apply Z.pow_le_mono_r; lia).
    rewrite Z.pow_add_r in Ha by lia. change (2 ^ 1) with 2 in *.
    set (X := 2 ^ (kb - ka - 1)) in *. set (Y := 2 ^ ka) in *.
    set (B := 2 ^ mb) in *.
    assert (a * Y < B * 2 * Y) by (apply Z.mul_lt_mono_pos_r; lia).
    assert (B * 2 * Y <= b * 2 * Y) by (apply Z.mul_le_mono_nonneg_r; lia).
    assert (b * 2 * Y <= b * (X * 2 * Y)).
    { replace (b * (X * 2 * Y)) with (b * 2 * Y * X) by ring.
      assert (0 <= b * 2 * Y) by (subst B; nia).
      nia. }
    lia. }
  destruct (Z.compare_spec k1 k2) as [-> | Hk | Hk].
  - assert (0 < 2 ^ k2) by (apply Z.pow_pos_nonneg; lia).
    destruct (Z.compare_spec m1 m2) as [-> | Hm | Hm]; symmetry.
    + apply Z.compare_refl.
    + apply Z.compare_lt_iff. by apply Z.mul_lt_mono_pos_r.
    + apply Z.compare_gt_iff. by apply Z.mul_lt_mono_pos_r.
  - symmetry. apply Z.compare_lt_iff. apply Hlt; [lia|done|]. apply Hn2. lia.
  - symmetry. apply Z.compare_gt_iff. apply Hlt; [lia|done|]. apply Hn1. lia.
Qed.

Section CompareFacts.
Variable fmt : Format.
Hypothesis mbits_nonneg : 0 <= mbits fmt.
Hypothesis ebits_nonneg : 0 <= ebits fmt.

Lemma decode_denotes b :
  isnan fmt b = false → denotes fmt (decode fmt b) (number_of fmt b).
Proof.
  unfold isnan, decode, number_of.
  pose proof (fraction_range fmt mbits_nonneg b) as Hf.
  pose proof (biased_exponent_range fmt ebits_nonneg b) as He.
  assert (Hpow : 2 ^ (mbits fmt + 1) = 2 * 2 ^ mbits fmt)
    by (rewrite Z.pow_add_r by lia; change (2 ^ 1) with 2; lia).
  generalize dependent (fraction fmt b). intros f.
  generalize dependent (biased_exponent fmt b). intros e.
  generalize (sign_bit fmt b). intros s He Hf.
  destruct (Z.eqb_spec e (Z.ones (ebits fmt))) as [-> | Hinf]; simpl.
  - destruct (Z.eqb_spec f 0) as [-> | ?]; [|discriminate]. intros _.
    constructor.
  - intros _. destruct (Z.eqb_spec e 0) as [-> | Hsub].
    + destruct (Z.eqb_spec f 0) as [-> | Hnz].
      * replace (Finite _) with (Finite 0) by (by destruct s). constructor.
      * change (Z.max 0 1 - 1) with 0.
        replace (1 - bias fmt - mbits fmt)
          with (0 + (1 - bias fmt - mbits fmt)) by lia.
        apply denotes_finite; lia.
    + replace (e - bias fmt - mbits fmt)
        with ((Z.max e 1 - 1) + (1 - bias fmt - mbits fmt)) by lia.
      apply denotes_finite; lia.
Qed.

Lemma denotes_compare a b na nb :
  denotes fmt a na → denotes fmt b nb →
  SFcompare a b = Some (number_compare na nb).
Proof.
  intros Ha Hb.
  destruct Ha as [s1 | s1 | s1 m1 k1 Hm1 Hk1 Hn1];
    destruct Hb as [s2 | s2 | s2 m2 k2 Hm2 Hk2 Hn2];
    unfold SFcompare, number_compare.
  - by destruct s1, s2.
  - by destruct s1.
  - by destruct s1, s2.
  - by destruct s2.
  - reflexivity.
  - assert (0 < m2 * 2 ^ k2)
      by (apply Z.mul_pos_pos; [lia|apply Z.pow_pos_nonneg; lia]).
    f_equal. destruct s2; symmetry.
    + apply Z.compare_gt_iff. lia.
    + apply Z.compare_lt_iff. lia.
  - by destruct s1, s2.
  - assert (0 < m1 * 2 ^ k1)
      by (apply Z.mul_pos_pos; [lia|apply Z.pow_pos_nonneg; lia]).
    f_equal. destruct s1; symmetry.
    + apply Z.compare_lt_iff. lia.
    + apply Z.compare_gt_iff. lia.
  - assert (H1 : 0 < m1 * 2 ^ k1)
      by (apply Z.mul_pos_pos; [lia|apply Z.pow_pos_nonneg; lia]).
    assert (H2 : 0 < m2 * 2 ^ k2)
      by (apply Z.mul_pos_pos; [lia|apply Z.pow_pos_nonneg; lia]).
    pose proof (magnitude_compare (mbits fmt) m1 m2 k1 k2 mbits_nonneg
                  Hk1 Hk2 Hm1 Hm2 Hn1 Hn2) as Hmag.
    rewrite (Z.add_comm k1), (Z.add_comm k2), Z.add_compare_mono_l.
    change (Pos.compare_cont Eq (Z.to_pos m1) (Z.to_pos m2))
      with (Z.to_pos m1 ?= Z.to_pos m2)%positive.
    rewrite <- Z2Pos.inj_compare by lia.
    f_equal. destruct s1, s2.
    + rewrite Z.compare_opp, (Z.compare_antisym (m1 * 2 ^ k1)), <- Hmag.
      by destruct (k1 ?= k2).
    + symmetry. apply Z.compare_lt_iff. lia.
    + symmetry. apply Z.compare_gt_iff. lia.
    + rewrite <- Hmag. by destruct (k1 ?= k2).
Qed.

(** The comparison C makes of two operands that are not NaN is the
    comparison of the numbers they denote. *)
Lemma decode_compare x y :
  isnan fmt x = false → isnan fmt y = false →
  SFcompare (decode fmt x) (decode fmt y)
    = Some (number_compare (number_of fmt x) (number_of fmt y)).
Proof.
  intros Hx Hy. apply denotes_compare; by apply decode_denotes.
Qed.

End CompareFacts.

(** ** Signaling comparisons *)

Lemma format_of_mbits w : 0 <= mbits (format_of w).
Proof. by destruct w. Qed.

Lemma format_of_ebits w : 0 <= ebits (format_of w).
Proof. by destruct w. Qed.

Lemma c_op_holds p w x y :
  isnan (format_of w) x = false → isnan (format_of w) y = false →
  (c_op p (format_of w) x y = 1
     ↔ holds p (number_of (format_of w) x) (number_of (format_of w) y)) ∧
  (c_op p (format_of w) x y = 0 ∨ c_op p (format_of w) x y = 1).
Proof.
  intros Hx Hy.
  pose proof (decode_compare _ (format_of_mbits w) (format_of_ebits w)
                x y Hx Hy) as Hxy.
  pose proof (decode_compare _ (format_of_mbits w) (format_of_ebits w)
                y x Hy Hx) as Hyx.
  destruct p; unfold c_op, c_eq, c_lt, c_le, c_gt, c_ge, c_ne, SFeqb, SFltb,
    SFleb, holds, number_eq, number_lt, number_le;
    rewrite ?Hxy, ?Hyx;
    match goal with
    | |- context [number_compare ?a ?b] => destruct (number_compare a b)
    end; simpl; split; try tauto; split; congruence.
Qed.

Lemma wf_set_fenv f σ : wf σ → wf (set_fenv f σ).
Proof. intros [? ? ?]. by split. Qed.

Lemma land_lor_absorb a i all :
  Z.land i all = i → Z.land (Z.land (Z.lor a i) all) i = i.
Proof.
  intros Hall. rewrite <- Z.land_assoc, (Z.land_comm all), Hall.
  apply Z.bits_inj'. intros n _.
  rewrite Z.land_spec, Z.lor_spec. by destruct (Z.testbit a n), (Z.testbit i n).
Qed.

Section CompareProperties.
Context {P : FenvH}.

Lemma comparator_unfold w p x y :
  comparator w p x y =
    if isnan (format_of w) x || isnan (format_of w) y then
      feraiseexcept FE_INVALID ;;
      ieee754_raise_exception IEEE754_EXCEPTION_INVALID ;;
      mret (unordered_result p)
    else mret (c_op p (format_of w) x y).
Proof. by destruct w, p. Qed.

(** The branch every comparator takes on a NaN operand. *)
Lemma nan_branch_run (r : Z) t σ :
  wf σ →
  ∃ σ', (feraiseexcept FE_INVALID ;;
         ieee754_raise_exception IEEE754_EXCEPTION_INVALID ;;
         mret r) t σ = Some (r, σ') ∧
        wf σ' ∧
        flags_of t σ' = ThreadExceptionState.set_invalid 1 (flags_of t σ) ∧
        (∀ t', t' ≠ t → flags_of t' σ' = flags_of t' σ) ∧
        fenv σ' = <[t := mkFEnv (fe_round (fenv σ t))
                            (Z.lor (fe_except (fenv σ t)) FE_INVALID)]>
                    (fenv σ).
Proof.
  intros Hwf.
  set (σ0 := set_fenv (<[t := mkFEnv (fe_round (fenv σ t))
                               (Z.lor (fe_except (fenv σ t)) FE_INVALID)]>
                         (fenv σ)) σ).
  destruct (raise_run t IEEE754_EXCEPTION_INVALID σ0 (wf_set_fenv _ _ Hwf))
    as (σ' & Hrun & Ht).
  exists σ'. split_and!.
  - unfold feraiseexcept. munfold. fold σ0. by rewrite Hrun.
  - apply Ht.
  - by rewrite (touched_flags _ _ _ _ Ht).
  - intros t' Hne. by rewrite (touched_frame _ _ _ _ Ht t' Hne).
  - by rewrite (touched_fenv _ _ _ _ Ht).
Qed.

Lemma comparator_nan_run w p x y t σ :
  wf σ →
  isnan (format_of w) x = true ∨ isnan (format_of w) y = true →
  ∃ σ', comparator w p x y t σ = Some (unordered_result p, σ') ∧
        wf σ' ∧
        flags_of t σ' = ThreadExceptionState.set_invalid 1 (flags_of t σ) ∧
        (∀ t', t' ≠ t → flags_of t' σ' = flags_of t' σ) ∧
        fenv σ' = <[t := mkFEnv (fe_round (fenv σ t))
                            (Z.lor (fe_except (fenv σ t)) FE_INVALID)]>
                    (fenv σ).
Proof.
  intros Hwf Hnan. rewrite comparator_unfold.
  replace (isnan (format_of w) x || isnan (format_of w) y) with true
    by (symmetry; apply orb_true_iff; tauto).
  by apply nan_branch_run.
Qed.

Lemma comparator_ordered_run w p x y t σ :
  isnan (format_of w) x = false → isnan (format_of w) y = false →
  comparator w p x y t σ = Some (c_op p (format_of w) x y, σ).
Proof.
  intros Hx Hy. by rewrite comparator_unfold, Hx, Hy.
Qed.

(** C1. When an operand is a NaN, each of the twelve comparators returns,
    and returns the unordered result: 0 for [EQ], [LT], [LE], [GT], [GE]
    and 1 for [NE]. The test [isnan] does not look at the quiet bit
    ([isnan_quiet_or_signaling]), so this covers quiet and signaling NaNs
    alike, in either or both positions. *)
Theorem nan_comparison_unordered
    (w : width) (p : predicate) (x y : Z) (t : nat) (σ : Process) :
  wf σ →
  isnan (format_of w) x = true ∨ isnan (format_of w) y = true →
  eval (comparator w p x y) t σ
    = Some (match p with NE => 1 | _ => 0 end).
Proof.
  intros Hwf Hnan.
  destruct (comparator_nan_run w p x y t σ Hwf Hnan) as (σ' & Hrun & _).
  unfold eval. rewrite Hrun. by destruct p.
Qed.

(** C2. When an operand is a NaN, a comparator called right after
    [ieee754_clear_all_exceptions] leaves the snapshot [{1, 0, 0, 0, 0}],
    so that the test of [INVALID] returns 1; the call ors [FE_INVALID]
    into the thread's hardware flags, which [ieee754_test_fpu_exceptions]
    then reports where [FE_INVALID] is a non-zero part of
    [FE_ALL_EXCEPT]. *)
Theorem nan_raises_invalid
    (w : width) (p : predicate) (x y : Z) (t : nat) (σ : Process) :
  wf σ →
  isnan (format_of w) x = true ∨ isnan (format_of w) y = true →
  eval (ieee754_clear_all_exceptions ;; comparator w p x y ;;
        ieee754_get_exceptions) t σ
    = Some {| invalid := 1; divByZero := 0; overflow := 0;
              underflow := 0; inexact := 0 |} ∧
  eval (ieee754_clear_all_exceptions ;; comparator w p x y ;;
        ieee754_test_exception IEEE754_EXCEPTION_INVALID) t σ = Some 1 ∧
  (∃ σ', exec (comparator w p x y) t σ = Some σ' ∧
         fe_except (fenv σ' t) = Z.lor (fe_except (fenv σ t)) FE_INVALID) ∧
  (invalid_testable →
   ∃ e, eval (comparator w p x y ;; ieee754_test_fpu_exceptions) t σ
          = Some e ∧ invalid e = 1).
Proof.
  intros Hwf Hnan.
  destruct (clear_all_run t σ Hwf) as (σ1 & Hrun1 & Ht1).
  destruct (comparator_nan_run w p x y t σ1 (touched_wf _ _ _ _ Ht1) Hnan)
    as (σ2 & Hrun2 & Hwf2 & Hflags2 & _ & _).
  rewrite (touched_flags _ _ _ _ Ht1) in Hflags2.
  destruct (comparator_nan_run w p x y t σ Hwf Hnan)
    as (σ' & Hrun & _ & _ & _ & Hfenv).
  split_and!.
  - by rewrite (eval_seq _ _ _ _ _ _ Hrun1), (eval_seq _ _ _ _ _ _ Hrun2),
      (eval_get_exceptions _ _ Hwf2), Hflags2.
  - by rewrite (eval_seq _ _ _ _ _ _ Hrun1), (eval_seq _ _ _ _ _ _ Hrun2),
      (eval_test _ _ _ Hwf2), Hflags2.
  - exists σ'. split; [unfold exec; by rewrite Hrun|].
    by rewrite Hfenv, fn_lookup_insert.
  - intros [Hnz Hall]. rewrite (eval_seq _ _ _ _ _ _ Hrun).
    eexists. split; [reflexivity|]. simpl.
    rewrite Hfenv, fn_lookup_insert. simpl. unfold flag_bit.
    rewrite (land_lor_absorb _ _ _ Hall).
    by destruct (Z.eqb_spec FE_INVALID 0).
Qed.

(** C3. When neither operand is a NaN, each of the twelve comparators
    returns 1 if the relation it names holds between the numbers the
    operands denote and 0 if not, and returns the process state it was
    given: no software flag, no hardware flag. Called after
    [ieee754_clear_all_exceptions], it leaves the snapshot all zero. *)
Theorem ordered_comparison_pure
    (w : width) (p : predicate) (x y : Z) (t : nat) (σ : Process) :
  isnan (format_of w) x = false → isnan (format_of w) y = false →
  ∃ r, comparator w p x y t σ = Some (r, σ) ∧
       (r = 1 ↔ holds p (number_of (format_of w) x)
                        (number_of (format_of w) y)) ∧
       (r = 0 ∨ r = 1) ∧
       (wf σ →
        eval (ieee754_clear_all_exceptions ;; comparator w p x y ;;
              ieee754_get_exceptions) t σ
          = Some {| invalid := 0; divByZero := 0; overflow := 0;
                    underflow := 0; inexact := 0 |}).
Proof.
  intros Hx Hy. exists (c_op p (format_of w) x y).
  destruct (c_op_holds p w x y Hx Hy) as [Hholds Hbool].
  split_and!; [by apply comparator_ordered_run|done|done|].
  intros Hwf.
  destruct (clear_all_run t σ Hwf) as (σ1 & Hrun1 & Ht1).
  by rewrite (eval_seq _ _ _ _ _ _ Hrun1),
    (eval_seq _ _ _ _ _ _ (comparator_ordered_run w p x y t σ1 Hx Hy)),
    (eval_get_exceptions _ _ (touched_wf _ _ _ _ Ht1)),
    (touched_flags _ _ _ _ Ht1).
Qed.

End CompareProperties.

(** ** Several threads *)

Section Threads.
Context {P : FenvH}.

(** When a thread ends its block is freed; the other threads keep theirs. *)
Lemma thread_exit_run t σ :
  wf σ →
  ∃ σ', thread_exit t σ = Some ((), σ') ∧ wf σ' ∧
        flags_of t σ' = ThreadExceptionState.zero ∧
        (∀ t', t' ≠ t → flags_of t' σ' = flags_of t' σ).
Proof.
  intros [Hkey Halloc Hinj]. unfold thread_exit.
  destruct (specific σ !! t) as [p|] eqn:Hp.
  - destruct (Halloc _ _ Hp) as [s Hs].
    unfold cleanup_thread_exceptions, free. simpl. rewrite Hs. simpl.
    eexists. split; [reflexivity|]. split_and!.
    + split; simpl.
      * intros Hk. rewrite (Hkey Hk) in Hp. by rewrite lookup_empty in Hp.
      * intros t' q Hq. destruct (decide (t' = t)) as [->|Hne];
          simplify_map_eq.
        rewrite lookup_delete_ne; [eauto|]. intros ->. eauto.
      * intros t1 t2 q H1 H2.
        destruct (decide (t1 = t)) as [->|]; [by simplify_map_eq|].
        destruct (decide (t2 = t)) as [->|]; [by simplify_map_eq|].
        rewrite lookup_delete_ne in H1, H2 by done. eauto.
    + unfold flags_of. simpl. by rewrite lookup_delete_eq.
    + intros t' Hne. unfold flags_of. simpl.
      rewrite lookup_delete_ne by done.
      destruct (specific σ !! t') as [q|] eqn:Hq; [|done].
      rewrite lookup_delete_ne; [done|]. intros ->. apply Hne. eauto.
  - exists σ. split_and!; [done|by split| |done].
    unfold flags_of. by rewrite Hp.
Qed.

Lemma perform_run c t σ :
  wf σ →
  ∃ σ', exec (perform c) t σ = Some σ' ∧ wf σ' ∧
        flags_of t σ' = effect c (flags_of t σ) ∧
        (∀ t', t' ≠ t → flags_of t' σ' = flags_of t' σ).
Proof.
  intros Hwf. destruct c as [flag|flag|flag| | |w p x y|mode| | | |];
    unfold perform, effect.
  - destruct (raise_run t flag σ Hwf) as (σ' & Hrun & Ht).
    exists σ'. unfold exec. rewrite Hrun.
    split_and!; [done|apply Ht|apply (touched_flags _ _ _ _ Ht)|apply Ht].
  - destruct (test_run t flag σ Hwf) as (σ' & Hrun & Ht).
    exists σ'. unfold exec. munfold. rewrite Hrun.
    split_and!; [done|apply Ht|apply (touched_flags _ _ _ _ Ht)|apply Ht].
  - destruct (clear_run t flag σ Hwf) as (σ' & Hrun & Ht).
    exists σ'. unfold exec. rewrite Hrun.
    split_and!; [done|apply Ht|apply (touched_flags _ _ _ _ Ht)|apply Ht].
  - destruct (get_exceptions_run t σ Hwf) as (σ' & Hrun & Ht).
    exists σ'. unfold exec. munfold. rewrite Hrun.
    split_and!; [done|apply Ht|apply (touched_flags _ _ _ _ Ht)|apply Ht].
  - destruct (clear_all_run t σ Hwf) as (σ' & Hrun & Ht).
    exists σ'. unfold exec. rewrite Hrun.
    split_and!; [done|apply Ht|apply (touched_flags _ _ _ _ Ht)|apply Ht].
  - destruct (isnan (format_of w) x || isnan (format_of w) y) eqn:Hnan.
    + apply orb_true_iff in Hnan.
      destruct (comparator_nan_run w p x y t σ Hwf Hnan)
        as (σ' & Hrun & Hwf' & Hflags & Hframe & _).
      exists σ'. unfold exec. munfold. by rewrite Hrun.
    + apply orb_false_iff in Hnan as [Hx Hy].
      exists σ. unfold exec. munfold.
      by rewrite (comparator_ordered_run w p x y t σ Hx Hy).
  - unfold exec. munfold. rewrite set_rounding_mode_run.
    destruct (fe_round_supported _); simpl; eexists; split_and!;
      try done; by apply wf_set_fenv.
  - by exists σ.
  - by exists σ.
  - eexists. split_and!; [done|by apply wf_set_fenv|done|done].
  - destruct (thread_exit_run t σ Hwf) as (σ' & Hrun & Hwf' & Hfl & Hfr).
    exists σ'. unfold exec. by rewrite Hrun.
Qed.

Lemma run_simulation tr b σ1 σ2 :
  wf σ1 → wf σ2 → flags_of b σ1 = flags_of b σ2 →
  ∃ σ1' σ2', run tr σ1 = Some σ1' ∧ run (events_of b tr) σ2 = Some σ2' ∧
             wf σ1' ∧ wf σ2' ∧ flags_of b σ1' = flags_of b σ2'.
Proof.
  revert σ1 σ2. induction tr as [|[t c] tr IH]; intros σ1 σ2 Hwf1 Hwf2 Heq.
  - by exists σ1, σ2.
  - destruct (perform_run c t σ1 Hwf1) as (σ1' & Hrun1 & Hwf1' & Hfl1 & Hfr1).
    unfold events_of. simpl. rewrite Hrun1.
    destruct (decide (t = b)) as [-> | Hne].
    + rewrite filter_cons_True by done. simpl.
      destruct (perform_run c b σ2 Hwf2)
        as (σ2' & Hrun2 & Hwf2' & Hfl2 & Hfr2).
      rewrite Hrun2. apply IH; [done..|]. by rewrite Hfl1, Hfl2, Heq.
    + rewrite filter_cons_False by done.
      apply IH; [done..|]. rewrite Hfr1; [done|]. congruence.
Qed.

(** C9. On a well-formed state, an event of a thread [a] (a call of the
    API with any arguments, or the end of the thread) returns and leaves
    what another thread [b] gets from [ieee754_test_exception] and
    [ieee754_get_exceptions] as it was. So in every execution, however the
    events of the threads are interleaved, every event returns and what
    [b] gets at the end is what it gets after its own events alone. *)
Theorem flags_isolated
    (tr : list (nat * event)) (a b : nat) (c : event) (σ : Process) :
  wf σ → a ≠ b →
  (∃ σ1, exec (perform c) a σ = Some σ1 ∧
         (∀ flag, eval (ieee754_test_exception flag) b σ1
                  = eval (ieee754_test_exception flag) b σ) ∧
         eval ieee754_get_exceptions b σ1
           = eval ieee754_get_exceptions b σ) ∧
  (∃ σ' σb, run tr σ = Some σ' ∧ run (events_of b tr) σ = Some σb ∧
            (∀ flag, eval (ieee754_test_exception flag) b σ'
                     = eval (ieee754_test_exception flag) b σb) ∧
            eval ieee754_get_exceptions b σ'
              = eval ieee754_get_exceptions b σb).
Proof.
  intros Hwf Hab. split.
  - destruct (perform_run c a σ Hwf) as (σ1 & Hrun & Hwf1 & _ & Hframe).
    exists σ1. split_and!; [done| |].
    + intros flag.
      by rewrite (eval_test _ _ _ Hwf1), (eval_test _ _ _ Hwf),
        (Hframe b (not_eq_sym Hab)).
    + by rewrite (eval_get_exceptions _ _ Hwf1),
        (eval_get_exceptions _ _ Hwf), (Hframe b (not_eq_sym Hab)).
  - destruct (run_simulation tr b σ σ Hwf Hwf eq_refl)
      as (σ' & σb & Hrun & Hrunb & Hwf' & Hwfb & Heq).
    exists σ', σb. split_and!; [done..| |].
    + intros flag.
      by rewrite (eval_test _ _ _ Hwf'), (eval_test _ _ _ Hwfb), Heq.
    + by rewrite (eval_get_exceptions _ _ Hwf'),
        (eval_get_exceptions _ _ Hwfb), Heq.
Qed.

End Threads.

(** ** Concrete runs *)

Lemma glibc_invalid_testable : @invalid_testable glibc_x86_64.
Proof. by split. Qed.

Lemma nan_comparison_unordered_witness :
  wf initial ∧
  (isnan (format_of Double) signaling_nan64 = true ∨
   isnan (format_of Double) one64 = true) ∧
  eval (comparator (P := glibc_x86_64) Double NE signaling_nan64 one64)
    0%nat initial = Some 1.
Proof.
  assert (Hnan : isnan (format_of Double) signaling_nan64 = true ∨
                 isnan (format_of Double) one64 = true)
    by (left; reflexivity).
  split; [exact wf_initial|]. split; [exact Hnan|].
  exact (nan_comparison_unordered (P := glibc_x86_64) Double NE
           signaling_nan64 one64 0%nat initial wf_initial Hnan).
Defined.

Lemma nan_raises_invalid_witness :
  wf initial ∧
  (isnan (format_of Single) one32 = true ∨
   isnan (format_of Single) quiet_nan32 = true) ∧
  @invalid_testable glibc_x86_64 ∧
  eval (ieee754_clear_all_exceptions ;;
        comparator (P := glibc_x86_64) Single LE one32 quiet_nan32 ;;
        ieee754_get_exceptions) 0%nat initial
    = Some {| invalid := 1; divByZero := 0; overflow := 0;
              underflow := 0; inexact := 0 |} ∧
  ∃ e, eval (comparator (P := glibc_x86_64) Single LE one32 quiet_nan32 ;;
             ieee754_test_fpu_exceptions (P := glibc_x86_64)) 0%nat initial
         = Some e ∧ invalid e = 1.
Proof.
  assert (Hnan : isnan (format_of Single) one32 = true ∨
                 isnan (format_of Single) quiet_nan32 = true)
    by (right; reflexivity).
  pose proof (nan_raises_invalid (P := glibc_x86_64) Single LE
                one32 quiet_nan32 0%nat initial wf_initial Hnan)
    as (Hsoft & _ & _ & Hhard).
  split; [exact wf_initial|]. split; [exact Hnan|].
  split; [exact glibc_invalid_testable|].
  split; [exact Hsoft|]. exact (Hhard glibc_invalid_testable).
Defined.

Lemma ordered_comparison_pure_witness :
  isnan (format_of Double) one64 = false ∧
  isnan (format_of Double) two64 = false ∧
  wf initial ∧
  (∃ r, comparator (P := glibc_x86_64) Double LT one64 two64 0%nat initial
          = Some (r, initial) ∧
        (r = 1 ↔ holds LT (number_of (format_of Double) one64)
                         (number_of (format_of Double) two64))) ∧
  eval (ieee754_clear_all_exceptions ;;
        comparator (P := glibc_x86_64) Double LT one64 two64 ;;
        ieee754_get_exceptions) 0%nat initial
    = Some {| invalid := 0; divByZero := 0; overflow := 0;
              underflow := 0; inexact := 0 |}.
Proof.
  assert (Hx : isnan (format_of Double) one64 = false) by reflexivity.
  assert (Hy : isnan (format_of Double) two64 = false) by reflexivity.
  split; [exact Hx|]. split; [exact Hy|]. split; [exact wf_initial|].
  destruct (ordered_comparison_pure (P := glibc_x86_64) Double LT
              one64 two64 0%nat initial Hx Hy)
    as (r & Hrun & Hr & _ & Hflags).
  split; [|exact (Hflags wf_initial)].
  exists r. split; [exact Hrun | exact Hr].
Defined.

(** The scenarios of the specification, run on the model. *)
Example eq_nan_one :
  eval (r ← ieee754_signaling_equal (P := glibc_x86_64) quiet_nan64 one64;
        i ← ieee754_test_exception IEEE754_EXCEPTION_INVALID;
        mret (r, i)) 0%nat initial = Some (0, 1).
Proof. reflexivity. Qed.

Example ne_nan_nan :
  eval (r ← ieee754_signaling_not_equal (P := glibc_x86_64)
              quiet_nan64 quiet_nan64;
        i ← ieee754_test_exception IEEE754_EXCEPTION_INVALID;
        mret (r, i)) 0%nat initial = Some (1, 1).
Proof. reflexivity. Qed.

Example less_one_two :
  eval (ieee754_signaling_less (P := glibc_x86_64) one64 two64)
    0%nat initial = Some 1.
Proof. reflexivity. Qed.

Example greater_equal_infinity :
  eval (ieee754_signaling_greater_equal (P := glibc_x86_64)
          minus_infinity64 one64) 0%nat initial = Some 0.
Proof. reflexivity. Qed.

Example signaling_nan_raises_hardware_invalid :
  eval (ieee754_clear_fpu_exceptions (P := glibc_x86_64) ;;
        ieee754_signaling_less_f (P := glibc_x86_64) signaling_nan32 one32 ;;
        ieee754_test_fpu_exceptions (P := glibc_x86_64)) 0%nat initial
    = Some {| invalid := 1; divByZero := 0; overflow := 0;
              underflow := 0; inexact := 0 |}.
Proof. reflexivity. Qed.

(** Thread 0 raises [OVERFLOW]; thread 1 does not see it, thread 0 does. *)
Example flags_after_interleaving :
  (σ ← run (P := glibc_x86_64)
         [(0%nat, Raise IEEE754_EXCEPTION_OVERFLOW);
          (1%nat, Raise IEEE754_EXCEPTION_INEXACT);
          (0%nat, Compare Double EQ quiet_nan64 one64);
          (1%nat, Exit);
          (2%nat, Raise IEEE754_EXCEPTION_UNDERFLOW)] initial;
   a ← eval ieee754_get_exceptions 0%nat σ;
   b ← eval ieee754_get_exceptions 1%nat σ;
   c ← eval ieee754_get_exceptions 2%nat σ;
   Some (a, b, c))
  = Some ({| invalid := 1; divByZero := 0; overflow := 1;
             underflow := 0; inexact := 0 |},
          {| invalid := 0; divByZero := 0; overflow := 0;
             underflow := 0; inexact := 0 |},
          {| invalid := 0; divByZero := 0; overflow := 0;
             underflow := 1; inexact := 0 |}).
Proof. reflexivity. Qed.

Example overflow_of_other_thread :
  (σ ← run (P := glibc_x86_64)
         [(0%nat, Raise IEEE754_EXCEPTION_OVERFLOW)] initial;
   a ← eval (ieee754_test_exception IEEE754_EXCEPTION_OVERFLOW) 0%nat σ;
   b ← eval (ieee754_test_exception IEEE754_EXCEPTION_OVERFLOW) 1%nat σ;
   Some (a, b)) = Some (1, 0).
Proof. reflexivity. Qed.

Lemma flags_isolated_witness :
  wf initial ∧ 0%nat ≠ 1%nat ∧
  ∃ σ1, exec (perform (P := glibc_x86_64) (Raise IEEE754_EXCEPTION_OVERFLOW))
          0%nat initial = Some σ1 ∧
        (∀ flag, eval (ieee754_test_exception flag) 1%nat σ1
                 = eval (ieee754_test_exception flag) 1%nat initial) ∧
        eval ieee754_get_exceptions 1%nat σ1
          = eval ieee754_get_exceptions 1%nat initial.
Proof.
  assert (Hab : 0%nat ≠ 1%nat) by discriminate.
  split; [exact wf_initial|]. split; [exact Hab|].
  exact (proj1 (flags_isolated (P := glibc_x86_64)
                  [(0%nat, Raise IEEE754_EXCEPTION_OVERFLOW);
                   (1%nat, Raise IEEE754_EXCEPTION_INEXACT);
                   (0%nat, Exit)]
                  0%nat 1%nat (Raise IEEE754_EXCEPTION_OVERFLOW)
                  initial wf_initial Hab)).
Defined.

(** * Further properties *)

(** ** Sequences of accesses to the software store *)

Lemma exec_bind {A B} (m1 : M A) (m2 : M B) t σ :
  exec (m1 ;; m2) t σ = exec m1 t σ ≫= exec m2 t.
Proof. munfold. by destruct (m1 t σ) as [[a σ1]|]. Qed.

Lemma eval_bind {A B} (m1 : M A) (m2 : M B) t σ :
  eval (m1 ;; m2) t σ = exec m1 t σ ≫= eval m2 t.
Proof. munfold. by destruct (m1 t σ) as [[a σ1]|]. Qed.

Lemma poke_poke p s1 s2 σ : poke p s2 (poke p s1 σ) = poke p s2 σ.
Proof. unfold poke, set_heap. simpl. by rewrite insert_insert_eq. Qed.

Lemma poke_same p s σ : heap σ !! p = Some s → poke p s σ = σ.
Proof. intros Hs. unfold poke. by rewrite insert_id, set_heap_id. Qed.

Lemma settled_poke t p s s' σ : settled t p s σ → settled t p s' (poke p s' σ).
Proof.
  intros ([Hkey Halloc Hinj] & Hk & Hp & Hs). unfold settled, poke. simpl.
  split_and!; [|done|done|by simplify_map_eq].
  split; simpl; [done| |done].
  intros t' q Hq. destruct (decide (q = p)) as [->|]; simplify_map_eq; eauto.
Qed.

(** The first access of a call: the block it finds or makes. *)
Lemma first_access t σ :
  wf σ →
  ∃ p σ1, get_thread_state t σ = Some (p, σ1) ∧
          settled t p (flags_of t σ) σ1.
Proof.
  intros Hwf.
  destruct (get_thread_state_touched t σ Hwf) as (p & σ1 & Hget & Hp & Ht).
  exists p, σ1. split; [done|].
  destruct (touched_block _ _ _ _ Ht) as (q & Hq & Hs).
  assert (q = p) as -> by congruence.
  split_and!; [apply Ht|apply Ht|done|done].
Qed.

(** A flag-writing function on a thread that has its block. *)
Lemma write_exception_settled raise flag t p s σ :
  settled t p s σ →
  write_exception raise flag t σ
    = Some ((), poke p (write_flag flag (Z.b2z raise) s) σ).
Proof.
  intros (_ & Hk & Hp & Hs). destruct raise; simpl.
  - exact (write_settled (write_flag flag 1) _ t p s σ
             (λ _ _ _ H, raise_body_run flag t _ _ _ H) Hk Hp Hs).
  - exact (write_settled (write_flag flag 0) _ t p s σ
             (λ _ _ _ H, clear_body_run flag t _ _ _ H) Hk Hp Hs).
Qed.

Lemma clear_all_settled t p s σ :
  settled t p s σ →
  ieee754_clear_all_exceptions t σ
    = Some ((), poke p ThreadExceptionState.zero σ).
Proof.
  intros (_ & Hk & Hp & Hs).
  exact (write_settled (λ _, ThreadExceptionState.zero) _ t p s σ
           (λ _ _ _ H, store_run t _ _ _ _ H) Hk Hp Hs).
Qed.

(** The same functions as the first access of their thread. *)
Lemma write_exception_first raise flag t p σ σ1 :
  get_thread_state t σ = Some (p, σ1) → settled t p (flags_of t σ) σ1 →
  write_exception raise flag t σ
    = Some ((), poke p (write_flag flag (Z.b2z raise) (flags_of t σ)) σ1).
Proof.
  intros Hget (_ & _ & _ & Hs).
  destruct raise; simpl;
    unfold ieee754_raise_exception, ieee754_clear_exception; munfold;
    rewrite Hget; [by apply raise_body_run | by apply clear_body_run].
Qed.

Lemma clear_all_first t p σ σ1 :
  get_thread_state t σ = Some (p, σ1) → settled t p (flags_of t σ) σ1 →
  ieee754_clear_all_exceptions t σ
    = Some ((), poke p ThreadExceptionState.zero σ1).
Proof.
  intros Hget (_ & _ & _ & Hs).
  unfold ieee754_clear_all_exceptions, memset_zero. munfold. rewrite Hget.
  by apply store_run with (flags_of t σ).
Qed.

Lemma write_flag_overwrite flag v w s :
  write_flag flag v (write_flag flag w s) = write_flag flag v s.
Proof. unfold write_flag. by repeat case_match. Qed.

Lemma write_flag_commute f g v w s :
  f ≠ g →
  write_flag g w (write_flag f v s) = write_flag f v (write_flag g w s).
Proof.
  intros Hne. unfold write_flag.
  repeat case_match; try reflexivity;
    repeat match goal with
           | H : (_ =? _) = true |- _ => apply Z.eqb_eq in H
           end; congruence.
Qed.

Lemma field_of_snapshot flag s :
  field_of flag (snapshot s) = read_flag flag s.
Proof. reflexivity. Qed.

(** X1. Clearing one of the five flags makes a following test of that flag
    return 0 and leaves what a test of any other flag returns as it
    was. *)
Theorem clear_resets_exactly_its_flag (t : nat) (flag : Z) (σ : Process) :
  wf σ → defined_flag flag →
  ∀ g, eval (ieee754_clear_exception flag ;;
             ieee754_test_exception g) t σ
       = if decide (g = flag) then Some 0
         else eval (ieee754_test_exception g) t σ.
Proof.
  intros Hwf Hflag g. destruct (clear_run t flag σ Hwf) as (σ1 & Hrun & Ht).
  rewrite (eval_seq _ _ _ _ _ _ Hrun),
    (eval_test _ _ _ (touched_wf _ _ _ _ Ht)),
    (touched_flags _ _ _ _ Ht), (eval_test _ _ _ Hwf),
    (read_write_flag _ _ _ _ Hflag).
  by case_decide.
Qed.

Lemma clear_resets_exactly_its_flag_witness :
  wf (flags_state (ThreadExceptionState.mk 0 0 1 1 0)) ∧
  defined_flag IEEE754_EXCEPTION_UNDERFLOW ∧
  eval (ieee754_test_exception IEEE754_EXCEPTION_UNDERFLOW) 0%nat
    (flags_state (ThreadExceptionState.mk 0 0 1 1 0)) = Some 1 ∧
  eval (ieee754_clear_exception IEEE754_EXCEPTION_UNDERFLOW ;;
        ieee754_test_exception IEEE754_EXCEPTION_UNDERFLOW) 0%nat
    (flags_state (ThreadExceptionState.mk 0 0 1 1 0)) = Some 0 ∧
  eval (ieee754_clear_exception IEEE754_EXCEPTION_UNDERFLOW ;;
        ieee754_test_exception IEEE754_EXCEPTION_OVERFLOW) 0%nat
    (flags_state (ThreadExceptionState.mk 0 0 1 1 0)) = Some 1.
Proof.
  assert (Hflag : defined_flag IEEE754_EXCEPTION_UNDERFLOW)
    by (unfold defined_flag, IEEE754_EXCEPTION_UNDERFLOW; lia).
  pose proof (clear_resets_exactly_its_flag 0%nat
                IEEE754_EXCEPTION_UNDERFLOW _
                (wf_flags_state (ThreadExceptionState.mk 0 0 1 1 0)) Hflag)
    as Hclear.
  split; [apply wf_flags_state|]. split; [exact Hflag|].
  split; [reflexivity|]. split.
  - exact (Hclear IEEE754_EXCEPTION_UNDERFLOW).
  - exact (Hclear IEEE754_EXCEPTION_OVERFLOW).
Defined.

(** X2. [ieee754_test_exception] returns the field of the snapshot
    [ieee754_get_exceptions] makes (0 for a value that names no field), and
    neither function changes what the other returns next. *)
Theorem test_agrees_with_snapshot (t : nat) (σ : Process) :
  wf σ →
  ∃ e, eval ieee754_get_exceptions t σ = Some e ∧
       ∀ flag,
         eval (ieee754_test_exception flag) t σ = Some (field_of flag e) ∧
         eval (ieee754_test_exception flag ;;
               ieee754_get_exceptions) t σ = Some e ∧
         eval (ieee754_get_exceptions ;;
               ieee754_test_exception flag) t σ = Some (field_of flag e).
Proof.
  intros Hwf. exists (snapshot (flags_of t σ)).
  split; [by apply eval_get_exceptions|]. intros flag. split_and!.
  - by rewrite (eval_test _ _ _ Hwf).
  - destruct (test_run t flag σ Hwf) as (σ1 & Hrun & Ht).
    by rewrite (eval_seq _ _ _ _ _ _ Hrun),
      (eval_get_exceptions _ _ (touched_wf _ _ _ _ Ht)),
      (touched_flags _ _ _ _ Ht).
  - destruct (get_exceptions_run t σ Hwf) as (σ1 & Hrun & Ht).
    by rewrite (eval_seq _ _ _ _ _ _ Hrun),
      (eval_test _ _ _ (touched_wf _ _ _ _ Ht)),
      (touched_flags _ _ _ _ Ht).
Qed.

Lemma test_agrees_with_snapshot_witness :
  Forall
    (λ s, wf (flags_state s) ∧
          eval ieee754_get_exceptions 0%nat (flags_state s)
            = Some (snapshot s) ∧
          (λ flag, eval (ieee754_test_exception flag) 0%nat (flags_state s))
            <$> [0; 1; 2; 3; 4; 5]
            = [Some (ThreadExceptionState.invalid s);
               Some (ThreadExceptionState.divByZero s);
               Some (ThreadExceptionState.overflow s);
               Some (ThreadExceptionState.underflow s);
               Some (ThreadExceptionState.inexact s); Some 0] ∧
          (λ flag, eval (ieee754_test_exception flag ;;
                         ieee754_get_exceptions) 0%nat (flags_state s))
            <$> [0; 1; 2; 3; 4; 5]
            = replicate 6 (Some (snapshot s)))
    [ThreadExceptionState.mk 1 0 1 0 1; ThreadExceptionState.mk 0 1 1 0 0;
     ThreadExceptionState.mk 0 0 0 1 1].
Proof.
  assert (Hone : ∀ s e,
            eval ieee754_get_exceptions 0%nat (flags_state s) = Some e →
            e = snapshot s).
  { intros s e He. change (Some (snapshot s) = Some e) in He.
    by injection He. }
  repeat apply Forall_cons_2; [| | |apply Forall_nil_2];
    match goal with
    | |- wf (flags_state ?s) ∧ _ =>
        destruct (test_agrees_with_snapshot 0%nat (flags_state s)
                    (wf_flags_state s)) as (e & Hget & Hall);
        pose proof (Hone _ _ Hget) as ->;
        split; [apply wf_flags_state|]; split; [exact Hget|]; split;
        [ simpl fmap;
          rewrite !(proj1 (Hall _)); reflexivity
        | simpl fmap;
          rewrite !(proj1 (proj2 (Hall _))); reflexivity ]
    end.
Defined.

Lemma one_write v f t p σ σ1 :
  get_thread_state t σ = Some (p, σ1) → settled t p (flags_of t σ) σ1 →
  exec (write_exception v f) t σ
    = Some (poke p (write_flag f (Z.b2z v) (flags_of t σ)) σ1).
Proof.
  intros Hget Hset. unfold exec.
  by rewrite (write_exception_first v f t p σ σ1 Hget Hset).
Qed.

Lemma two_writes v f w g t p σ σ1 :
  get_thread_state t σ = Some (p, σ1) → settled t p (flags_of t σ) σ1 →
  exec (write_exception v f ;; write_exception w g) t σ
    = Some (poke p (write_flag g (Z.b2z w)
                      (write_flag f (Z.b2z v) (flags_of t σ))) σ1).
Proof.
  intros Hget Hset.
  rewrite exec_bind, (one_write v f t p σ σ1 Hget Hset). simpl.
  unfold exec.
  rewrite (write_exception_settled w g t p _ _
             (settled_poke t p _ _ σ1 Hset)).
  simpl. by rewrite poke_poke.
Qed.

(** X3. Of two writes of the same flag the later one decides: raising and
    then clearing a flag leaves the very process state that clearing it
    leaves, clearing and then raising it the state that raising it leaves,
    and clearing it twice the state that clearing it once leaves. *)
Theorem last_write_wins (t : nat) (flag : Z) (σ : Process) :
  wf σ →
  (∃ σ', exec (ieee754_clear_exception flag) t σ = Some σ' ∧
         exec (ieee754_raise_exception flag ;;
               ieee754_clear_exception flag) t σ = Some σ' ∧
         exec (ieee754_clear_exception flag ;;
               ieee754_clear_exception flag) t σ = Some σ') ∧
  (∃ σ', exec (ieee754_raise_exception flag) t σ = Some σ' ∧
         exec (ieee754_clear_exception flag ;;
               ieee754_raise_exception flag) t σ = Some σ').
Proof.
  intros Hwf. destruct (first_access t σ Hwf) as (p & σ1 & Hget & Hset).
  change (ieee754_raise_exception flag) with (write_exception true flag).
  change (ieee754_clear_exception flag) with (write_exception false flag).
  split; eexists; split_and!.
  - exact (one_write false flag t p σ σ1 Hget Hset).
  - rewrite (two_writes true flag false flag t p σ σ1 Hget Hset).
    by rewrite write_flag_overwrite.
  - rewrite (two_writes false flag false flag t p σ σ1 Hget Hset).
    by rewrite write_flag_overwrite.
  - exact (one_write true flag t p σ σ1 Hget Hset).
  - rewrite (two_writes false flag true flag t p σ σ1 Hget Hset).
    by rewrite write_flag_overwrite.
Qed.

Lemma last_write_wins_witness :
  wf initial ∧
  ∃ σ', exec (ieee754_clear_exception IEEE754_EXCEPTION_INVALID) 0%nat
          initial = Some σ' ∧
        exec (ieee754_raise_exception IEEE754_EXCEPTION_INVALID ;;
              ieee754_clear_exception IEEE754_EXCEPTION_INVALID) 0%nat
          initial = Some σ'.
Proof.
  split; [exact wf_initial|].
  destruct (proj1 (last_write_wins 0%nat IEEE754_EXCEPTION_INVALID initial
                     wf_initial)) as (σ' & Hone & Htwo & _).
  exists σ'. split; [exact Hone | exact Htwo].
Defined.

(** X4. Writes of two different flags commute: raising or clearing [f] and
    then raising or clearing [g] leaves the very process state that the
    two calls leave in the other order. *)
Theorem writes_of_different_flags_commute
    (t : nat) (v w : bool) (f g : Z) (σ : Process) :
  wf σ → f ≠ g →
  ∃ σ', exec (write_exception v f ;; write_exception w g) t σ = Some σ' ∧
        exec (write_exception w g ;; write_exception v f) t σ = Some σ'.
Proof.
  intros Hwf Hne. destruct (first_access t σ Hwf) as (p & σ1 & Hget & Hset).
  eexists. split.
  - exact (two_writes v f w g t p σ σ1 Hget Hset).
  - rewrite (two_writes w g v f t p σ σ1 Hget Hset).
    by rewrite (write_flag_commute f g _ _ _ Hne).
Qed.

Lemma writes_of_different_flags_commute_witness :
  wf initial ∧ IEEE754_EXCEPTION_OVERFLOW ≠ IEEE754_EXCEPTION_INEXACT ∧
  ∃ σ', exec (ieee754_raise_exception IEEE754_EXCEPTION_OVERFLOW ;;
              ieee754_clear_exception IEEE754_EXCEPTION_INEXACT) 0%nat
          initial = Some σ' ∧
        exec (ieee754_clear_exception IEEE754_EXCEPTION_INEXACT ;;
              ieee754_raise_exception IEEE754_EXCEPTION_OVERFLOW) 0%nat
          initial = Some σ'.
Proof.
  assert (Hne : IEEE754_EXCEPTION_OVERFLOW ≠ IEEE754_EXCEPTION_INEXACT)
    by discriminate.
  split; [exact wf_initial|]. split; [exact Hne|].
  exact (writes_of_different_flags_commute 0%nat true false
           IEEE754_EXCEPTION_OVERFLOW IEEE754_EXCEPTION_INEXACT initial
           wf_initial Hne).
Defined.

Lemma clear_settled f t p s σ :
  settled t p s σ →
  ieee754_clear_exception f t σ = Some ((), poke p (write_flag f 0 s) σ).
Proof. exact (write_exception_settled false f t p s σ). Qed.

Lemma exec_clear_then {B} f (rest : M B) t p s σ :
  settled t p s σ →
  exec (ieee754_clear_exception f ;; rest) t σ
    = exec rest t (poke p (write_flag f 0 s) σ).
Proof.
  intros Hset. rewrite exec_bind.
  assert (exec (ieee754_clear_exception f) t σ
            = Some (poke p (write_flag f 0 s) σ)) as ->
    by (unfold exec; by rewrite (clear_settled f t p s σ Hset)).
  reflexivity.
Qed.

(** X5. Clearing the five flags one by one leaves the very process state
    that [ieee754_clear_all_exceptions] leaves. *)
Theorem clear_all_is_five_clears (t : nat) (σ : Process) :
  wf σ →
  ∃ σ', exec ieee754_clear_all_exceptions t σ = Some σ' ∧
        exec (ieee754_clear_exception IEEE754_EXCEPTION_INVALID ;;
              ieee754_clear_exception IEEE754_EXCEPTION_DIVBYZERO ;;
              ieee754_clear_exception IEEE754_EXCEPTION_OVERFLOW ;;
              ieee754_clear_exception IEEE754_EXCEPTION_UNDERFLOW ;;
              ieee754_clear_exception IEEE754_EXCEPTION_INEXACT) t σ
          = Some σ'.
Proof.
  intros Hwf. destruct (first_access t σ Hwf) as (p & σ1 & Hget & Hset).
  exists (poke p ThreadExceptionState.zero σ1). split.
  - unfold exec. by rewrite (clear_all_first t p σ σ1 Hget Hset).
  - rewrite exec_bind.
    pose proof (one_write false IEEE754_EXCEPTION_INVALID t p σ σ1 Hget Hset)
      as Hfirst.
    change (write_exception false IEEE754_EXCEPTION_INVALID)
      with (ieee754_clear_exception IEEE754_EXCEPTION_INVALID) in Hfirst.
    rewrite Hfirst. clear Hfirst.
    change (Some ?x ≫= ?f) with (f x). cbv beta.
    rewrite (exec_clear_then _ _ t p _ _ (settled_poke t p _ _ σ1 Hset)),
      poke_poke.
    rewrite (exec_clear_then _ _ t p _ _ (settled_poke t p _ _ σ1 Hset)),
      poke_poke.
    rewrite (exec_clear_then _ _ t p _ _ (settled_poke t p _ _ σ1 Hset)),
      poke_poke.
    unfold exec.
    rewrite (clear_settled IEEE754_EXCEPTION_INEXACT t p _ _
               (settled_poke t p _ _ σ1 Hset)).
    simpl. by rewrite poke_poke.
Qed.

Lemma clear_all_is_five_clears_witness :
  wf (flags_state (ThreadExceptionState.mk 1 1 1 1 1)) ∧
  exec ieee754_clear_all_exceptions 0%nat
    (flags_state (ThreadExceptionState.mk 1 1 1 1 1))
    = Some (flags_state ThreadExceptionState.zero) ∧
  exec (ieee754_clear_exception IEEE754_EXCEPTION_INVALID ;;
        ieee754_clear_exception IEEE754_EXCEPTION_DIVBYZERO ;;
        ieee754_clear_exception IEEE754_EXCEPTION_OVERFLOW ;;
        ieee754_clear_exception IEEE754_EXCEPTION_UNDERFLOW ;;
        ieee754_clear_exception IEEE754_EXCEPTION_INEXACT) 0%nat
    (flags_state (ThreadExceptionState.mk 1 1 1 1 1))
    = Some (flags_state ThreadExceptionState.zero).
Proof.
  destruct (clear_all_is_five_clears 0%nat _
              (wf_flags_state (ThreadExceptionState.mk 1 1 1 1 1)))
    as (σ' & Hall & Hfive).
  assert (Hzero : exec ieee754_clear_all_exceptions 0%nat
                    (flags_state (ThreadExceptionState.mk 1 1 1 1 1))
                  = Some (flags_state ThreadExceptionState.zero)).
  { unfold exec.
    rewrite (clear_all_settled 0%nat 1%positive
               (ThreadExceptionState.mk 1 1 1 1 1) _).
    - simpl. unfold poke, flags_state, set_heap. simpl.
      by rewrite insert_singleton_eq.
    - split_and!; [apply wf_flags_state|done|..]; simpl;
        by rewrite lookup_singleton_eq. }
  split; [apply wf_flags_state|]. split; [exact Hzero|].
  rewrite Hfive, <- Hall. exact Hzero.
Defined.

(** ** Blocks and their owners *)

(** An access of one thread leaves the blocks of the others where they
    are. *)
Lemma get_thread_state_keeps t t' p q σ σ' :
  wf σ → specific σ !! t' = Some q →
  get_thread_state t σ = Some (p, σ') → specific σ' !! t' = Some q.
Proof.
  intros [Hkey _ _] Hq. rewrite get_thread_state_unfold.
  destruct (key_once σ) eqn:Hk; simpl.
  - destruct (specific σ !! t) as [r|] eqn:Hr; intros [= <- <-]; [done|].
    simpl. rewrite lookup_insert_ne; [done|]. congruence.
  - rewrite (Hkey eq_refl) in Hq. by rewrite lookup_empty in Hq.
Qed.



Lemma owned_set_fenv f σ : owned σ → owned (set_fenv f σ).
Proof. done. Qed.






Section Owners.
Context {P : FenvH}.



End Owners.



(** X7. [get_thread_state] gives two threads two different blocks, and
    gives a thread the block it gave it before, without changing the
    state, whatever block another thread has been given in between. *)
Theorem blocks_are_private (t1 t2 : nat) (σ : Process) :
  wf σ → t1 ≠ t2 →
  ∃ p1 p2 σ1 σ2,
    get_thread_state t1 σ = Some (p1, σ1) ∧
    get_thread_state t2 σ1 = Some (p2, σ2) ∧
    p1 ≠ p2 ∧
    get_thread_state t1 σ2 = Some (p1, σ2) ∧
    get_thread_state t2 σ2 = Some (p2, σ2).
Proof.
  intros Hwf Hne.
  destruct (first_access t1 σ Hwf) as (p1 & σ1 & Hget1 & Hwf1 & Hk1 & Hp1 & _).
  destruct (first_access t2 σ1 Hwf1)
    as (p2 & σ2 & Hget2 & Hwf2 & Hk2 & Hp2 & _).
  pose proof (get_thread_state_keeps t2 t1 p2 p1 σ1 σ2 Hwf1 Hp1 Hget2) as Hp1'.
  exists p1, p2, σ1, σ2. split_and!; [done|done| | |].
  - intros ->. apply Hne. exact (wf_inj _ Hwf2 _ _ _ Hp1' Hp2).
  - by apply get_thread_state_settled.
  - by apply get_thread_state_settled.
Qed.

Lemma blocks_are_private_witness :
  wf initial ∧ 0%nat ≠ 1%nat ∧
  ∃ p1 p2 σ1 σ2,
    get_thread_state 0%nat initial = Some (p1, σ1) ∧
    get_thread_state 1%nat σ1 = Some (p2, σ2) ∧
    p1 ≠ p2 ∧
    get_thread_state 0%nat σ2 = Some (p1, σ2) ∧
    get_thread_state 1%nat σ2 = Some (p2, σ2).
Proof.
  assert (Hne : 0%nat ≠ 1%nat) by discriminate.
  split; [exact wf_initial|]. split; [exact Hne|].
  exact (blocks_are_private 0%nat 1%nat initial wf_initial Hne).
Defined.

(** ** Flags stay raised *)

Lemma read_write_other flag g v s :
  g ≠ flag → read_flag flag (write_flag g v s) = read_flag flag s.
Proof.
  intros Hne. unfold read_flag, write_flag,
    IEEE754_EXCEPTION_INVALID, IEEE754_EXCEPTION_DIVBYZERO,
    IEEE754_EXCEPTION_OVERFLOW, IEEE754_EXCEPTION_UNDERFLOW,
    IEEE754_EXCEPTION_INEXACT.
  repeat case_match; simpl; try reflexivity; lia.
Qed.

Lemma read_write_same flag v s :
  defined_flag flag → read_flag flag (write_flag flag v s) = v.
Proof.
  intros Hf. rewrite (read_write_flag _ _ _ _ Hf). by case_decide.
Qed.

Lemma effect_keeps flag c s :
  defined_flag flag → lowers flag c = false → read_flag flag s = 1 →
  read_flag flag (effect c s) = 1.
Proof.
  intros Hf Hc Hs. destruct c as [g|g|g| | |w p x y|mode| | | |];
    simpl in *; try done.
  - destruct (decide (g = flag)) as [->|Hne];
      [by apply read_write_same | by rewrite read_write_other].
  - apply Z.eqb_neq in Hc. by rewrite read_write_other.
  - destruct (isnan (format_of w) x || isnan (format_of w) y); [|done].
    change (ThreadExceptionState.set_invalid 1 s)
      with (write_flag IEEE754_EXCEPTION_INVALID 1 s).
    destruct (decide (IEEE754_EXCEPTION_INVALID = flag)) as [<-|Hne];
      [by apply read_write_same | by rewrite read_write_other].
Qed.

Section Sticky.
Context {P : FenvH}.

(** X8. A software flag is sticky. Once a test of one of the five flags
    returns 1 in a thread, it returns 1 after every execution in which
    that thread neither clears the flag, nor clears all, nor ends,
    whatever else it and the other threads do. *)
Theorem raised_flag_stays_raised
    (tr : list (nat * event)) (b : nat) (flag : Z) (σ : Process) :
  wf σ → defined_flag flag →
  eval (ieee754_test_exception flag) b σ = Some 1 →
  Forall (λ e, e.1 = b → lowers flag e.2 = false) tr →
  ∃ σ', run tr σ = Some σ' ∧
        eval (ieee754_test_exception flag) b σ' = Some 1.
Proof.
  intros Hwf Hflag Hone Htr. rewrite (eval_test _ _ _ Hwf) in Hone.
  injection Hone as Hone.
  revert σ Hwf Hone. induction Htr as [|[t c] tr Hc Htr IH]; intros σ Hwf Hone.
  - exists σ. split; [done|]. by rewrite (eval_test _ _ _ Hwf), Hone.
  - destruct (perform_run c t σ Hwf) as (σ1 & Hrun & Hwf1 & Hfl & Hfr).
    simpl. rewrite Hrun. apply IH; [done|].
    destruct (decide (t = b)) as [->|Hne].
    + rewrite Hfl. apply effect_keeps; [done|by apply Hc|done].
    + rewrite Hfr; [done|congruence].
Qed.

End Sticky.

Lemma raised_flag_stays_raised_witness :
  ∃ σ, exec (ieee754_raise_exception IEEE754_EXCEPTION_OVERFLOW) 0%nat
         initial = Some σ ∧
       wf σ ∧ defined_flag IEEE754_EXCEPTION_OVERFLOW ∧
       eval (ieee754_test_exception IEEE754_EXCEPTION_OVERFLOW) 0%nat σ
         = Some 1 ∧
       ∃ σ', run (P := glibc_x86_64)
               [(0%nat, Clear IEEE754_EXCEPTION_INEXACT);
                (1%nat, ClearAll);
                (0%nat, Compare Double LT one64 two64);
                (1%nat, Exit)] σ = Some σ' ∧
             eval (ieee754_test_exception IEEE754_EXCEPTION_OVERFLOW)
               0%nat σ' = Some 1.
Proof.
  destruct (raise_run 0%nat IEEE754_EXCEPTION_OVERFLOW initial wf_initial)
    as (σ & Hrun & Ht).
  assert (Hflag : defined_flag IEEE754_EXCEPTION_OVERFLOW)
    by (unfold defined_flag, IEEE754_EXCEPTION_OVERFLOW; lia).
  assert (Hone : eval (ieee754_test_exception IEEE754_EXCEPTION_OVERFLOW)
                   0%nat σ = Some 1).
  { rewrite (eval_test _ _ _ (touched_wf _ _ _ _ Ht)),
      (touched_flags _ _ _ _ Ht). reflexivity. }
  exists σ. split; [unfold exec; by rewrite Hrun|].
  split; [exact (touched_wf _ _ _ _ Ht)|]. split; [exact Hflag|].
  split; [exact Hone|].
  apply (raised_flag_stays_raised (P := glibc_x86_64) _ 0%nat
           IEEE754_EXCEPTION_OVERFLOW σ (touched_wf _ _ _ _ Ht) Hflag Hone).
  repeat constructor; simpl; intros; try reflexivity; discriminate.
Defined.

(** ** Hardware flags and rounding control *)

Lemma thread_exit_fenv t σ σ' :
  thread_exit t σ = Some ((), σ') → fenv σ' = fenv σ.
Proof.
  unfold thread_exit, cleanup_thread_exceptions, free.
  destruct (specific σ !! t) as [p|]; [|by intros [= <-]]. simpl.
  destruct (heap σ !! p); [|done]. simpl. by intros [= <-].
Qed.

Lemma land_zero_bits a b n :
  Z.land a b = 0 → Z.testbit a n && Z.testbit b n = false.
Proof. intros H. by rewrite <- Z.land_spec, H, Z.bits_0. Qed.

Lemma land_ldiff_same a m : Z.land (Z.ldiff a m) m = 0.
Proof.
  apply Z.bits_inj'. intros n _.
  rewrite Z.land_spec, Z.ldiff_spec, Z.bits_0.
  by destruct (Z.testbit a n), (Z.testbit m n).
Qed.

Lemma land_lor_disjoint a i all x :
  Z.land i x = 0 → Z.land (Z.land (Z.lor a i) all) x = Z.land (Z.land a all) x.
Proof.
  intros Hd. apply Z.bits_inj'. intros n _.
  pose proof (land_zero_bits i x n Hd) as Hn.
  rewrite !Z.land_spec, Z.lor_spec.
  by destruct (Z.testbit a n), (Z.testbit i n), (Z.testbit all n),
    (Z.testbit x n).
Qed.

Section Hardware.
Context {P : FenvH}.

Lemma flag_bit_mono a b all m :
  (∀ n, Z.testbit a n = true → Z.testbit b n = true) →
  flag_bit (Z.land a all) m = 1 → flag_bit (Z.land b all) m = 1.
Proof.
  intros Hab. unfold flag_bit.
  destruct (Z.eqb_spec (Z.land (Z.land a all) m) 0) as [|Ha]; [done|].
  intros _.
  destruct (Z.eqb_spec (Z.land (Z.land b all) m) 0) as [Hb|]; [|done].
  exfalso. apply Ha. apply Z.bits_inj'. intros n _.
  assert (Hn : Z.testbit (Z.land (Z.land b all) m) n = false)
    by (by rewrite Hb, Z.bits_0).
  rewrite !Z.land_spec in Hn. rewrite !Z.land_spec, Z.bits_0.
  destruct (Z.testbit a n) eqn:Han; [|done].
  by rewrite (Hab n Han) in Hn.
Qed.

Lemma test_fpu_run t σ :
  ieee754_test_fpu_exceptions t σ =
    Some ({| invalid :=
               flag_bit (Z.land (fe_except (fenv σ t)) FE_ALL_EXCEPT)
                 FE_INVALID;
             divByZero :=
               flag_bit (Z.land (fe_except (fenv σ t)) FE_ALL_EXCEPT)
                 FE_DIVBYZERO;
             overflow :=
               flag_bit (Z.land (fe_except (fenv σ t)) FE_ALL_EXCEPT)
                 FE_OVERFLOW;
             underflow :=
               flag_bit (Z.land (fe_except (fenv σ t)) FE_ALL_EXCEPT)
                 FE_UNDERFLOW;
             inexact :=
               flag_bit (Z.land (fe_except (fenv σ t)) FE_ALL_EXCEPT)
                 FE_INEXACT |}, σ).
Proof. reflexivity. Qed.

(** What an event does to the floating-point environments. *)
Lemma perform_fenv c t σ σ' :
  wf σ → exec (perform c) t σ = Some σ' →
  fe_except (fenv σ' t) = hardware_effect c (fe_except (fenv σ t)) ∧
  fe_round (fenv σ' t) = rounding_effect c (fe_round (fenv σ t)) ∧
  ∀ t', t' ≠ t → fenv σ' t' = fenv σ t'.
Proof.
  intros Hwf.
  assert (Hsame : fenv σ' = fenv σ →
            fe_except (fenv σ' t) = fe_except (fenv σ t) ∧
            fe_round (fenv σ' t) = fe_round (fenv σ t) ∧
            ∀ t', t' ≠ t → fenv σ' t' = fenv σ t')
    by (by intros ->).
  destruct c as [flag|flag|flag| | |w p x y|mode| | | |];
    unfold perform, hardware_effect, rounding_effect.
  - destruct (raise_run t flag σ Hwf) as (σ1 & Hrun & Ht).
    unfold exec. rewrite Hrun. intros [= <-]. apply Hsame, Ht.
  - destruct (test_run t flag σ Hwf) as (σ1 & Hrun & Ht).
    unfold exec. munfold. rewrite Hrun. intros [= <-]. apply Hsame, Ht.
  - destruct (clear_run t flag σ Hwf) as (σ1 & Hrun & Ht).
    unfold exec. rewrite Hrun. intros [= <-]. apply Hsame, Ht.
  - destruct (get_exceptions_run t σ Hwf) as (σ1 & Hrun & Ht).
    unfold exec. munfold. rewrite Hrun. intros [= <-]. apply Hsame, Ht.
  - destruct (clear_all_run t σ Hwf) as (σ1 & Hrun & Ht).
    unfold exec. rewrite Hrun. intros [= <-]. apply Hsame, Ht.
  - destruct (isnan (format_of w) x || isnan (format_of w) y) eqn:Hnan.
    + apply orb_true_iff in Hnan.
      destruct (comparator_nan_run w p x y t σ Hwf Hnan)
        as (σ1 & Hrun & _ & _ & _ & Hfenv).
      unfold exec. munfold. rewrite Hrun. intros [= <-]. rewrite Hfenv.
      split_and!; [by rewrite fn_lookup_insert..|].
      intros t' Hne. by rewrite fn_lookup_insert_ne.
    + apply orb_false_iff in Hnan as [Hx Hy]. unfold exec. munfold.
      rewrite (comparator_ordered_run w p x y t σ Hx Hy).
      intros [= <-]. by apply Hsame.
  - unfold exec. munfold. rewrite set_rounding_mode_run.
    destruct (fe_round_supported _); intros [= <-]; [|by apply Hsame].
    simpl. split_and!; [by rewrite fn_lookup_insert..|].
    intros t' Hne. by rewrite fn_lookup_insert_ne.
  - intros [= <-]. by apply Hsame.
  - intros [= <-]. by apply Hsame.
  - intros [= <-]. simpl.
    split_and!; [by rewrite fn_lookup_insert..|].
    intros t' Hne. by rewrite fn_lookup_insert_ne.
  - unfold exec. destruct (thread_exit t σ) as [[[] σ1]|] eqn:Hexit; [|done].
    intros [= <-]. apply Hsame. by eapply thread_exit_fenv.
Qed.

(** An invariant of the environment of one thread along an execution. *)
Lemma run_fenv_invariant (I : FEnv → FEnv → Prop) (ok : event → bool)
    (tr : list (nat * event)) (b : nat) (σ : Process) :
  (∀ e, I e e) → (∀ e1 e2 e3, I e1 e2 → I e2 e3 → I e1 e3) →
  (∀ c e e', ok c = true →
     fe_except e' = hardware_effect c (fe_except e) →
     fe_round e' = rounding_effect c (fe_round e) → I e e') →
  wf σ → Forall (λ e, e.1 = b → ok e.2 = true) tr →
  ∃ σ', run tr σ = Some σ' ∧ I (fenv σ b) (fenv σ' b).
Proof.
  intros Hrefl Htrans Hstep Hwf Htr. revert σ Hwf.
  induction Htr as [|[t c] tr Hc Htr IH]; intros σ Hwf.
  - by exists σ.
  - destruct (perform_run c t σ Hwf) as (σ1 & Hrun & Hwf1 & _).
    destruct (perform_fenv c t σ σ1 Hwf Hrun) as (Hex & Hro & Hfr).
    simpl. rewrite Hrun. destruct (IH σ1 Hwf1) as (σ' & Hrun' & HI).
    exists σ'. split; [done|]. apply Htrans with (fenv σ1 b); [|done].
    destruct (decide (t = b)) as [->|Hne].
    + apply (Hstep c); [by apply Hc|done|done].
    + rewrite Hfr; [apply Hrefl|congruence].
Qed.

(** X9. A hardware flag is sticky. A flag that
    [ieee754_test_fpu_exceptions] reports in a thread is still reported
    after every execution in which that thread does not call
    [ieee754_clear_fpu_exceptions], whatever else it and the other threads
    do. *)
Theorem hardware_flag_stays_raised
    (tr : list (nat * event)) (b : nat) (σ : Process) :
  wf σ →
  Forall (λ e, e.1 = b → negb (clears_hardware e.2) = true) tr →
  ∃ σ' h h', run tr σ = Some σ' ∧
             eval ieee754_test_fpu_exceptions b σ = Some h ∧
             eval ieee754_test_fpu_exceptions b σ' = Some h' ∧
             (invalid h = 1 → invalid h' = 1) ∧
             (divByZero h = 1 → divByZero h' = 1) ∧
             (overflow h = 1 → overflow h' = 1) ∧
             (underflow h = 1 → underflow h' = 1) ∧
             (inexact h = 1 → inexact h' = 1).
Proof.
  intros Hwf Htr.
  destruct (run_fenv_invariant
              (λ e e', ∀ n, Z.testbit (fe_except e) n = true →
                            Z.testbit (fe_except e') n = true)
              (λ c, negb (clears_hardware c)) tr b σ) as (σ' & Hrun & Hmono);
    [done|by eauto| |done|done|].
  { intros c e e' Hc He _ n. rewrite He.
    destruct c as [| | | | |w p x y| | | | |]; simpl in *; try done.
    destruct (isnan (format_of w) x || isnan (format_of w) y); [|done].
    rewrite Z.lor_spec. by intros ->. }
  eexists σ', _, _. split; [done|].
  unfold eval. rewrite !test_fpu_run. simpl.
  split_and!; [done|done|by apply flag_bit_mono..].
Qed.

(** X10. None of the functions but [ieee754_set_rounding_mode] changes the
    rounding direction: [ieee754_get_rounding_mode] returns in a thread
    what it returned before, after every execution in which that thread
    does not call [ieee754_set_rounding_mode]. *)
Theorem rounding_mode_stays
    (tr : list (nat * event)) (b : nat) (σ : Process) :
  wf σ →
  Forall (λ e, e.1 = b → negb (sets_rounding e.2) = true) tr →
  ∃ σ', run tr σ = Some σ' ∧
        eval ieee754_get_rounding_mode b σ'
          = eval ieee754_get_rounding_mode b σ.
Proof.
  intros Hwf Htr.
  destruct (run_fenv_invariant (λ e e', fe_round e' = fe_round e)
              (λ c, negb (sets_rounding c)) tr b σ) as (σ' & Hrun & Hsame);
    [done|by intros ??? -> ->| |done|done|].
  { intros c e e' Hc _ He. rewrite He. by destruct c. }
  exists σ'. split; [done|].
  unfold eval, ieee754_get_rounding_mode, fegetround. munfold. simpl.
  by rewrite Hsame.
Qed.

(** X11. The hardware flags and the software flags are two stores. What
    [ieee754_get_exceptions] returns is the same before and after
    [ieee754_clear_fpu_exceptions]; and what
    [ieee754_test_fpu_exceptions] returns in a thread is the same after
    every execution in which that thread makes no comparison and does not
    call [ieee754_clear_fpu_exceptions]: raising, testing and clearing
    software flags, the rounding functions and the end of a thread leave
    the hardware flags alone. *)
Theorem hardware_and_software_flags_apart
    (tr : list (nat * event)) (b : nat) (σ : Process) :
  wf σ →
  Forall (λ e, e.1 = b → negb (touches_hardware e.2) = true) tr →
  eval (ieee754_clear_fpu_exceptions ;; ieee754_get_exceptions) b σ
    = eval ieee754_get_exceptions b σ ∧
  is_Some (eval ieee754_get_exceptions b σ) ∧
  ∃ σ', run tr σ = Some σ' ∧
        eval ieee754_test_fpu_exceptions b σ'
          = eval ieee754_test_fpu_exceptions b σ.
Proof.
  intros Hwf Htr. split_and!.
  - rewrite eval_bind. unfold exec at 1. simpl.
    by rewrite (eval_get_exceptions _ _ (wf_set_fenv _ _ Hwf)),
      (eval_get_exceptions _ _ Hwf).
  - by rewrite (eval_get_exceptions _ _ Hwf).
  - destruct (run_fenv_invariant (λ e e', fe_except e' = fe_except e)
                (λ c, negb (touches_hardware c)) tr b σ)
      as (σ' & Hrun & Hsame);
      [done|by intros ??? -> ->| |done|done|].
    { intros c e e' Hc He _. rewrite He. by destruct c. }
    exists σ'. split; [done|].
    unfold eval. rewrite !test_fpu_run. simpl. by rewrite Hsame.
Qed.

(** X12. Right after [ieee754_clear_fpu_exceptions],
    [ieee754_test_fpu_exceptions] reports no flag, on every platform; and
    the clear leaves the rounding direction as it was. *)
Theorem clear_fpu_exceptions_clears (t : nat) (σ : Process) :
  eval (ieee754_clear_fpu_exceptions ;; ieee754_test_fpu_exceptions) t σ
    = Some {| invalid := 0; divByZero := 0; overflow := 0;
              underflow := 0; inexact := 0 |} ∧
  eval (ieee754_clear_fpu_exceptions ;; ieee754_get_rounding_mode) t σ
    = eval ieee754_get_rounding_mode t σ.
Proof.
  split.
  - rewrite eval_bind. unfold exec at 1. simpl.
    unfold eval. rewrite test_fpu_run. simpl.
    rewrite fn_lookup_insert. simpl. by rewrite land_ldiff_same.
  - rewrite eval_bind. unfold exec at 1. simpl.
    unfold eval, ieee754_get_rounding_mode, fegetround. munfold. simpl.
    by rewrite fn_lookup_insert.
Qed.

(** X13. From any state, a comparator with a NaN operand sets the software
    flag [invalid] and leaves the other four software flags as they were;
    where [FE_INVALID] is a non-zero part of [FE_ALL_EXCEPT] that shares
    no bit with the other four macros, it does the same to the hardware
    flags. It never changes the rounding direction. *)
Theorem nan_comparison_raises_only_invalid
    (w : width) (p : predicate) (x y : Z) (t : nat) (σ : Process) :
  wf σ →
  isnan (format_of w) x = true ∨ isnan (format_of w) y = true →
  (∃ e, eval ieee754_get_exceptions t σ = Some e ∧
        eval (comparator w p x y ;; ieee754_get_exceptions) t σ
          = Some {| invalid := 1; divByZero := divByZero e;
                    overflow := overflow e; underflow := underflow e;
                    inexact := inexact e |}) ∧
  (invalid_testable → invalid_disjoint →
   ∃ h, eval ieee754_test_fpu_exceptions t σ = Some h ∧
        eval (comparator w p x y ;; ieee754_test_fpu_exceptions) t σ
          = Some {| invalid := 1; divByZero := divByZero h;
                    overflow := overflow h; underflow := underflow h;
                    inexact := inexact h |}) ∧
  eval (comparator w p x y ;; ieee754_get_rounding_mode) t σ
    = eval ieee754_get_rounding_mode t σ.
Proof.
  intros Hwf Hnan.
  destruct (comparator_nan_run w p x y t σ Hwf Hnan)
    as (σ' & Hrun & Hwf' & Hflags & _ & Hfenv).
  split_and!.
  - eexists. split; [by apply eval_get_exceptions|].
    by rewrite (eval_seq _ _ _ _ _ _ Hrun), (eval_get_exceptions _ _ Hwf'),
      Hflags.
  - intros [Hnz Hall] (Hd1 & Hd2 & Hd3 & Hd4).
    eexists. split; [by unfold eval; rewrite test_fpu_run|].
    rewrite (eval_seq _ _ _ _ _ _ Hrun). unfold eval.
    rewrite test_fpu_run, Hfenv, fn_lookup_insert. simpl.
    unfold flag_bit.
    rewrite (land_lor_absorb _ _ _ Hall), !land_lor_disjoint by done.
    by destruct (Z.eqb_spec FE_INVALID 0).
  - rewrite (eval_seq _ _ _ _ _ _ Hrun).
    unfold eval, ieee754_get_rounding_mode, fegetround. munfold. simpl.
    by rewrite Hfenv, fn_lookup_insert.
Qed.

End Hardware.

Lemma hardware_flag_stays_raised_witness :
  wf (hardware_state 0x21) ∧
  eval (ieee754_test_fpu_exceptions (P := glibc_x86_64)) 0%nat
    (hardware_state 0x21)
    = Some {| invalid := 1; divByZero := 0; overflow := 0;
              underflow := 0; inexact := 1 |} ∧
  ∃ σ' h',
    run (P := glibc_x86_64)
      [(0%nat, Compare Double LT one64 two64);
       (1%nat, ClearFpu); (0%nat, ClearAll);
       (0%nat, SetRounding IEEE754_ROUND_UPWARD);
       (0%nat, Raise IEEE754_EXCEPTION_OVERFLOW); (1%nat, Exit)]
      (hardware_state 0x21) = Some σ' ∧
    eval (ieee754_test_fpu_exceptions (P := glibc_x86_64)) 0%nat σ'
      = Some h' ∧
    invalid h' = 1 ∧ inexact h' = 1.
Proof.
  assert (Hwf : wf (hardware_state 0x21))
    by apply wf_set_fenv, wf_initial.
  assert (Hbefore : eval (ieee754_test_fpu_exceptions (P := glibc_x86_64))
                      0%nat (hardware_state 0x21)
                    = Some {| invalid := 1; divByZero := 0; overflow := 0;
                              underflow := 0; inexact := 1 |})
    by reflexivity.
  split; [exact Hwf|]. split; [exact Hbefore|].
  destruct (hardware_flag_stays_raised (P := glibc_x86_64)
              [(0%nat, Compare Double LT one64 two64);
               (1%nat, ClearFpu); (0%nat, ClearAll);
               (0%nat, SetRounding IEEE754_ROUND_UPWARD);
               (0%nat, Raise IEEE754_EXCEPTION_OVERFLOW); (1%nat, Exit)]
              0%nat (hardware_state 0x21) Hwf)
    as (σ' & h & h' & Hrun & Hh & Hh' & Hinv & _ & _ & _ & Hinex).
  { repeat constructor; simpl; intros; try reflexivity; discriminate. }
  rewrite Hbefore in Hh. injection Hh as <-.
  exists σ', h'. split; [exact Hrun|]. split; [exact Hh'|].
  split; [exact (Hinv eq_refl) | exact (Hinex eq_refl)].
Defined.

Lemma rounding_mode_stays_witness :
  wf initial ∧
  ∃ σ', run (P := glibc_x86_64)
          [(0%nat, Compare Single LT signaling_nan32 one32);
           (1%nat, SetRounding IEEE754_ROUND_TOWARDZERO);
           (0%nat, ClearFpu); (0%nat, Exit)] initial = Some σ' ∧
        eval (ieee754_get_rounding_mode (P := glibc_x86_64)) 0%nat σ'
          = eval (ieee754_get_rounding_mode (P := glibc_x86_64)) 0%nat
              initial.
Proof.
  split; [exact wf_initial|].
  apply (rounding_mode_stays (P := glibc_x86_64) _ 0%nat initial wf_initial).
  repeat constructor; simpl; intros; try reflexivity; discriminate.
Defined.

Lemma hardware_and_software_flags_apart_witness :
  wf initial ∧
  eval (ieee754_clear_fpu_exceptions (P := glibc_x86_64) ;;
        ieee754_get_exceptions) 0%nat initial
    = eval ieee754_get_exceptions 0%nat initial ∧
  ∃ σ', run (P := glibc_x86_64)
          [(0%nat, Raise IEEE754_EXCEPTION_INVALID);
           (1%nat, Compare Double NE quiet_nan64 quiet_nan64);
           (0%nat, ClearAll); (0%nat, Exit)] initial = Some σ' ∧
        eval (ieee754_test_fpu_exceptions (P := glibc_x86_64)) 0%nat σ'
          = eval (ieee754_test_fpu_exceptions (P := glibc_x86_64)) 0%nat
              initial.
Proof.
  split; [exact wf_initial|].
  destruct (hardware_and_software_flags_apart (P := glibc_x86_64)
              [(0%nat, Raise IEEE754_EXCEPTION_INVALID);
               (1%nat, Compare Double NE quiet_nan64 quiet_nan64);
               (0%nat, ClearAll); (0%nat, Exit)] 0%nat initial wf_initial)
    as (Hsoft & _ & Hhard).
  { repeat constructor; simpl; intros; try reflexivity; discriminate. }
  split; [exact Hsoft | exact Hhard].
Defined.

Lemma glibc_invalid_disjoint : @invalid_disjoint glibc_x86_64.
Proof. by repeat split. Qed.

Lemma nan_comparison_raises_only_invalid_witness :
  ∃ σ, exec (ieee754_raise_exception IEEE754_EXCEPTION_INEXACT) 0%nat
         initial = Some σ ∧
       wf σ ∧
       (isnan (format_of Double) quiet_nan64 = true ∨
        isnan (format_of Double) two64 = true) ∧
       @invalid_testable glibc_x86_64 ∧ @invalid_disjoint glibc_x86_64 ∧
       eval (comparator (P := glibc_x86_64) Double GE quiet_nan64 two64 ;;
             ieee754_get_exceptions) 0%nat σ
         = Some {| invalid := 1; divByZero := 0; overflow := 0;
                   underflow := 0; inexact := 1 |} ∧
       ∃ h, eval (ieee754_test_fpu_exceptions (P := glibc_x86_64)) 0%nat σ
              = Some h ∧
            eval (comparator (P := glibc_x86_64) Double GE quiet_nan64
                    two64 ;;
                  ieee754_test_fpu_exceptions (P := glibc_x86_64)) 0%nat σ
              = Some {| invalid := 1; divByZero := divByZero h;
                        overflow := overflow h; underflow := underflow h;
                        inexact := inexact h |}.
Proof.
  destruct (raise_run 0%nat IEEE754_EXCEPTION_INEXACT initial wf_initial)
    as (σ & Hrun & Ht).
  pose proof (touched_wf _ _ _ _ Ht) as Hwf.
  assert (Hnan : isnan (format_of Double) quiet_nan64 = true ∨
                 isnan (format_of Double) two64 = true)
    by (left; reflexivity).
  destruct (nan_comparison_raises_only_invalid (P := glibc_x86_64)
              Double GE quiet_nan64 two64 0%nat σ Hwf Hnan)
    as ((e & He & Hsoft) & Hhard & _).
  exists σ. split; [unfold exec; by rewrite Hrun|].
  split; [exact Hwf|]. split; [exact Hnan|].
  split; [exact glibc_invalid_testable|].
  split; [exact glibc_invalid_disjoint|].
  split; [|exact (Hhard glibc_invalid_testable glibc_invalid_disjoint)].
  rewrite Hsoft.
  rewrite (eval_get_exceptions _ _ Hwf), (touched_flags _ _ _ _ Ht) in He.
  by injection He as <-.
Defined.

(** ** More on rounding control *)

Section MoreRounding.
Context {P : FenvH}.

Lemma to_fe_round_unknown (mode : Z) :
  ¬ (0 <= mode <= 3) → ieee754_to_fe_round mode = FE_TONEAREST.
Proof.
  intros Hm. unfold ieee754_to_fe_round, IEEE754_ROUND_TONEAREST,
    IEEE754_ROUND_DOWNWARD, IEEE754_ROUND_UPWARD, IEEE754_ROUND_TOWARDZERO.
  repeat case_match; try reflexivity; lia.
Qed.

Lemma fe_round_to_ieee754_range (r : Z) : 0 <= fe_round_to_ieee754 r <= 3.
Proof. unfold fe_round_to_ieee754. repeat case_match; done. Qed.

Lemma native_round_trip (r : Z) :
  round_macros_distinct →
  ieee754_to_fe_round (fe_round_to_ieee754 r)
    = if bool_decide (r ∈ [FE_TONEAREST; FE_DOWNWARD; FE_UPWARD;
                            FE_TOWARDZERO])
      then r else FE_TONEAREST.
Proof.
  intros Hd. unfold fe_round_to_ieee754.
  destruct (Z.eqb_spec r FE_TONEAREST) as [->|H1].
  { rewrite bool_decide_eq_true_2 by set_solver. reflexivity. }
  destruct (Z.eqb_spec r FE_DOWNWARD) as [->|H2].
  { rewrite bool_decide_eq_true_2 by set_solver. reflexivity. }
  destruct (Z.eqb_spec r FE_UPWARD) as [->|H3].
  { rewrite bool_decide_eq_true_2 by set_solver. reflexivity. }
  destruct (Z.eqb_spec r FE_TOWARDZERO) as [->|H4].
  { rewrite bool_decide_eq_true_2 by set_solver. reflexivity. }
  rewrite bool_decide_eq_false_2; [reflexivity|]. intros Hin.
  repeat (apply elem_of_cons in Hin as [?|Hin]; [done|]).
  by apply elem_of_nil in Hin.
Qed.

(** X14. A mode value outside 0..3 is taken as round-to-nearest: where
    [fesetround] accepts [FE_TONEAREST], [ieee754_set_rounding_mode]
    returns 0 for it, leaves the state that setting
    [IEEE754_ROUND_TONEAREST] leaves, and [ieee754_get_rounding_mode]
    then returns [IEEE754_ROUND_TONEAREST]. *)
Theorem unknown_mode_is_to_nearest (t : nat) (mode : Z) (σ : Process) :
  fe_round_supported FE_TONEAREST = true → ¬ (0 <= mode <= 3) →
  eval (ieee754_set_rounding_mode mode) t σ = Some 0 ∧
  ieee754_set_rounding_mode mode t σ
    = ieee754_set_rounding_mode IEEE754_ROUND_TONEAREST t σ ∧
  eval (ieee754_set_rounding_mode mode ;;
        ieee754_get_rounding_mode) t σ = Some IEEE754_ROUND_TONEAREST.
Proof.
  intros Hsup Hm. pose proof (to_fe_round_unknown mode Hm) as Hto.
  unfold eval. munfold. rewrite !set_rounding_mode_run, Hto.
  change (ieee754_to_fe_round IEEE754_ROUND_TONEAREST) with FE_TONEAREST.
  rewrite Hsup. split_and!; [done|done|].
  unfold ieee754_get_rounding_mode, fegetround. munfold. simpl.
  rewrite fn_lookup_insert. simpl.
  unfold fe_round_to_ieee754. by rewrite Z.eqb_refl.
Qed.

(** X15. Saving and restoring: calling [ieee754_set_rounding_mode] with
    what [ieee754_get_rounding_mode] has just returned succeeds and leaves
    the thread's hardware flags and what [ieee754_get_rounding_mode]
    returns as they were. It leaves the native rounding control as it was
    when that is one of the four [FE_] constants, and replaces it by
    [FE_TONEAREST] when it is not. *)
Theorem restoring_the_rounding_mode (t : nat) (σ : Process) :
  round_macros_distinct → round_macros_supported →
  ∃ σ', (mode ← ieee754_get_rounding_mode;
         ieee754_set_rounding_mode mode) t σ = Some (0, σ') ∧
        eval ieee754_get_rounding_mode t σ'
          = eval ieee754_get_rounding_mode t σ ∧
        fe_except (fenv σ' t) = fe_except (fenv σ t) ∧
        fe_round (fenv σ' t)
          = if bool_decide (fe_round (fenv σ t)
                              ∈ [FE_TONEAREST; FE_DOWNWARD; FE_UPWARD;
                                 FE_TOWARDZERO])
            then fe_round (fenv σ t) else FE_TONEAREST.
Proof.
  intros Hd Hs. eexists. split_and!.
  - unfold ieee754_get_rounding_mode, fegetround. munfold.
    rewrite set_rounding_mode_run, (to_fe_round_supported _ Hs).
    reflexivity.
  - unfold eval, ieee754_get_rounding_mode, fegetround. munfold. simpl.
    rewrite fn_lookup_insert. simpl.
    by rewrite (fe_round_inverse _ Hd (fe_round_to_ieee754_range _)).
  - simpl. by rewrite fn_lookup_insert.
  - simpl. rewrite fn_lookup_insert. simpl. by apply native_round_trip.
Qed.

End MoreRounding.

Lemma unknown_mode_is_to_nearest_witness :
  @fe_round_supported glibc_x86_64 (@FE_TONEAREST glibc_x86_64) = true ∧
  ¬ (0 <= 7 <= 3) ∧
  eval (ieee754_set_rounding_mode (P := glibc_x86_64) 7 ;;
        ieee754_get_rounding_mode (P := glibc_x86_64)) 0%nat
    extended_rounding = Some IEEE754_ROUND_TONEAREST.
Proof.
  assert (Hs : @fe_round_supported glibc_x86_64
                 (@FE_TONEAREST glibc_x86_64) = true) by reflexivity.
  assert (Hm : ¬ (0 <= 7 <= 3)) by lia.
  split; [exact Hs|]. split; [exact Hm|].
  exact (proj2 (proj2 (unknown_mode_is_to_nearest (P := glibc_x86_64)
                         0%nat 7 extended_rounding Hs Hm))).
Defined.

Lemma restoring_the_rounding_mode_witness :
  @round_macros_distinct glibc_x86_64 ∧
  @round_macros_supported glibc_x86_64 ∧
  ∃ σ', (mode ← ieee754_get_rounding_mode (P := glibc_x86_64);
         ieee754_set_rounding_mode (P := glibc_x86_64) mode) 0%nat
          extended_rounding = Some (0, σ') ∧
        fe_round (fenv σ' 0%nat) = 0.
Proof.
  split; [exact glibc_round_macros_distinct|].
  split; [exact glibc_round_macros_supported|].
  destruct (restoring_the_rounding_mode (P := glibc_x86_64) 0%nat
              extended_rounding glibc_round_macros_distinct
              glibc_round_macros_supported)
    as (σ' & Hrun & _ & _ & Hround).
  exists σ'. split; [exact Hrun|]. rewrite Hround. reflexivity.
Defined.

(** ** The comparisons as relations *)

Lemma number_compare_refl a : number_compare a a = Eq.
Proof. destruct a; simpl; [done| |done]. apply Z.compare_refl. Qed.

Lemma number_compare_antisym a b :
  number_compare b a = CompOpp (number_compare a b).
Proof. destruct a, b; simpl; try done. apply Z.compare_antisym. Qed.

Lemma number_compare_eq a b : number_compare a b = Eq → a = b.
Proof.
  destruct a, b; simpl; try done. intros H. f_equal.
  by apply Z.compare_eq.
Qed.

Lemma number_compare_lt_trans a b c :
  number_compare a b = Lt → number_compare b c = Lt →
  number_compare a c = Lt.
Proof.
  destruct a, b, c; simpl; try done.
  rewrite !Z.compare_lt_iff. lia.
Qed.

Lemma number_compare_le_trans a b c :
  number_compare a b ≠ Gt → number_compare b c ≠ Gt →
  number_compare a c ≠ Gt.
Proof.
  destruct a, b, c; simpl; try done.
  rewrite !Z.compare_gt_iff. lia.
Qed.

Lemma c_op_answer p w x y :
  isnan (format_of w) x = false → isnan (format_of w) y = false →
  c_op p (format_of w) x y
    = answer p (number_compare (number_of (format_of w) x)
                               (number_of (format_of w) y)).
Proof.
  intros Hx Hy.
  pose proof (decode_compare _ (format_of_mbits w) (format_of_ebits w)
                x y Hx Hy) as Hxy.
  pose proof (decode_compare _ (format_of_mbits w) (format_of_ebits w)
                y x Hy Hx) as Hyx.
  rewrite (number_compare_antisym (number_of (format_of w) x)) in Hyx.
  destruct p; unfold c_op, c_eq, c_lt, c_le, c_gt, c_ge, c_ne, SFeqb, SFltb,
    SFleb; rewrite ?Hxy, ?Hyx;
    by destruct (number_compare _ _).
Qed.

Section Relations.
Context {P : FenvH}.

(** What a comparator returns, in one formula. *)
Lemma comparator_result w p x y t σ :
  wf σ →
  eval (comparator w p x y) t σ
    = Some (if isnan (format_of w) x || isnan (format_of w) y
            then unordered_result p
            else answer p (number_compare (number_of (format_of w) x)
                                          (number_of (format_of w) y))).
Proof.
  intros Hwf.
  destruct (isnan (format_of w) x || isnan (format_of w) y) eqn:Hnan.
  - apply orb_true_iff in Hnan.
    destruct (comparator_nan_run w p x y t σ Hwf Hnan) as (σ' & Hrun & _).
    unfold eval. by rewrite Hrun.
  - apply orb_false_iff in Hnan as [Hx Hy]. unfold eval.
    by rewrite (comparator_ordered_run w p x y t σ Hx Hy),
      (c_op_answer p w x y Hx Hy).
Qed.

(** X16. The comparators mirror each other, as whole calls (value returned
    and state left), for all operands, NaN included: [greater (x, y)] is
    [less (y, x)], [greater_equal (x, y)] is [less_equal (y, x)], and
    [equal] and [not_equal] do not depend on the order of their
    operands. *)
Theorem comparators_mirror (w : width) (x y : Z) (t : nat) (σ : Process) :
  comparator w GT x y t σ = comparator w LT y x t σ ∧
  comparator w GE x y t σ = comparator w LE y x t σ ∧
  comparator w EQ x y t σ = comparator w EQ y x t σ ∧
  comparator w NE x y t σ = comparator w NE y x t σ.
Proof.
  rewrite !comparator_unfold.
  rewrite (orb_comm (isnan (format_of w) y) (isnan (format_of w) x)).
  destruct (isnan (format_of w) x || isnan (format_of w) y) eqn:Hnan;
    [done|].
  apply orb_false_iff in Hnan as [Hx Hy].
  rewrite !(c_op_answer _ w x y Hx Hy), !(c_op_answer _ w y x Hy Hx),
    (number_compare_antisym (number_of (format_of w) x)).
  by destruct (number_compare _ _).
Qed.

(** X17. [not_equal] is the negation of [equal], for all operands: it
    returns 1 minus what [equal] returns and leaves the state [equal]
    leaves. *)
Theorem not_equal_negates_equal
    (w : width) (x y : Z) (t : nat) (σ : Process) :
  comparator w NE x y t σ
    = (λ a, (1 - a.1, a.2)) <$> comparator w EQ x y t σ.
Proof.
  rewrite !comparator_unfold.
  destruct (isnan (format_of w) x || isnan (format_of w) y) eqn:Hnan.
  - simpl. unfold feraiseexcept. munfold.
    by destruct (ieee754_raise_exception _ _ _) as [[[] σ']|].
  - apply orb_false_iff in Hnan as [Hx Hy].
    rewrite !(c_op_answer _ w x y Hx Hy).
    by destruct (number_compare _ _).
Qed.

(** X18. On every well-formed state the six comparators of a width fit
    together: [less_equal] returns 1 exactly when [less] or [equal] does,
    [greater_equal] exactly when [greater] or [equal] does, and of
    [less], [equal] and [greater] exactly one returns 1 when neither
    operand is a NaN and none when one is. *)
Theorem comparators_fit_together
    (w : width) (x y : Z) (t : nat) (σ : Process) :
  wf σ →
  ∃ lt eq gt le ge,
    eval (comparator w LT x y) t σ = Some lt ∧
    eval (comparator w EQ x y) t σ = Some eq ∧
    eval (comparator w GT x y) t σ = Some gt ∧
    eval (comparator w LE x y) t σ = Some le ∧
    eval (comparator w GE x y) t σ = Some ge ∧
    (le = 1 ↔ lt = 1 ∨ eq = 1) ∧ (ge = 1 ↔ gt = 1 ∨ eq = 1) ∧
    lt + eq + gt
      = if isnan (format_of w) x || isnan (format_of w) y then 0 else 1.
Proof.
  intros Hwf. eexists _, _, _, _, _.
  rewrite !(comparator_result _ _ _ _ _ _ Hwf).
  split_and!; [done..| | |];
    destruct (isnan (format_of w) x || isnan (format_of w) y);
    simpl; try (destruct (number_compare _ _); simpl);
    try done; split; try tauto; intros [?|?]; done.
Qed.

(** X19. [equal (x, x)] returns 1 exactly when [x] is not a NaN. *)
Theorem equal_to_itself (w : width) (x : Z) (t : nat) (σ : Process) :
  wf σ →
  eval (comparator w EQ x x) t σ
    = Some (if isnan (format_of w) x then 0 else 1).
Proof.
  intros Hwf. rewrite (comparator_result _ _ _ _ _ _ Hwf), orb_diag.
  destruct (isnan (format_of w) x); [done|].
  by rewrite number_compare_refl.
Qed.

(** X20. [less], [less_equal] and [equal] are transitive: when the
    comparator returns 1 for [x], [y] and for [y], [z], it returns 1 for
    [x], [z]. *)
Theorem comparators_transitive
    (w : width) (p : predicate) (x y z : Z) (t : nat) (σ : Process) :
  wf σ → p = LT ∨ p = LE ∨ p = EQ →
  eval (comparator w p x y) t σ = Some 1 →
  eval (comparator w p y z) t σ = Some 1 →
  eval (comparator w p x z) t σ = Some 1.
Proof.
  intros Hwf Hp. rewrite !(comparator_result _ _ _ _ _ _ Hwf).
  assert (Hun : unordered_result p ≠ 1)
    by (by destruct Hp as [->|[->| ->]]).
  destruct (isnan (format_of w) x), (isnan (format_of w) y),
    (isnan (format_of w) z); simpl; try (by intros [= ?]);
    try (by intros _ [= ?]).
  generalize (number_of (format_of w) x) (number_of (format_of w) y)
    (number_of (format_of w) z).
  intros a b c [= Hxy] [= Hyz]. f_equal.
  destruct Hp as [->|[->| ->]].
  - assert (Hab : number_compare a b = Lt)
      by (by destruct (number_compare a b)).
    assert (Hbc : number_compare b c = Lt)
      by (by destruct (number_compare b c)).
    by rewrite (number_compare_lt_trans a b c Hab Hbc).
  - assert (Hab : number_compare a b ≠ Gt)
      by (by destruct (number_compare a b)).
    assert (Hbc : number_compare b c ≠ Gt)
      by (by destruct (number_compare b c)).
    pose proof (number_compare_le_trans a b c Hab Hbc).
    by destruct (number_compare a c).
  - assert (Hab : number_compare a b = Eq)
      by (by destruct (number_compare a b)).
    assert (Hbc : number_compare b c = Eq)
      by (by destruct (number_compare b c)).
    apply number_compare_eq in Hab, Hbc. subst.
    by rewrite number_compare_refl.
Qed.

(** X21. The infinities are the ends of the order: for an operand that is
    not a NaN, [less_equal] of it and plus infinity returns 1, and so does
    [less_equal] of minus infinity and it. *)
Theorem infinities_are_extreme (w : width) (x : Z) (t : nat) (σ : Process) :
  wf σ → isnan (format_of w) x = false →
  eval (comparator w LE x (plus_infinity (format_of w))) t σ = Some 1 ∧
  eval (comparator w LE (minus_infinity (format_of w)) x) t σ = Some 1.
Proof.
  intros Hwf Hx. rewrite !(comparator_result _ _ _ _ _ _ Hwf), Hx.
  assert (Hp : isnan (format_of w) (plus_infinity (format_of w)) = false)
    by (by destruct w).
  assert (Hm : isnan (format_of w) (minus_infinity (format_of w)) = false)
    by (by destruct w).
  assert (Hpn : number_of (format_of w) (plus_infinity (format_of w))
                = PlusInfinity) by (by destruct w).
  assert (Hmn : number_of (format_of w) (minus_infinity (format_of w))
                = MinusInfinity) by (by destruct w).
  rewrite Hp, Hm, Hpn, Hmn. simpl.
  by destruct (number_of (format_of w) x).
Qed.

End Relations.

(** ** Comparisons and bit patterns *)

Lemma negate_inj a b : negate a = negate b → a = b.
Proof.
  destruct a, b; unfold negate; try done. intros [= H]. f_equal. lia.
Qed.

Lemma negate_nonneg a b :
  number_compare (Finite 0) a ≠ Gt → number_compare (Finite 0) b ≠ Gt →
  negate a = b → a = Finite 0 ∧ b = Finite 0.
Proof.
  destruct a as [|n|], b as [|m|]; unfold number_compare, negate;
    try done.
  rewrite !Z.compare_gt_iff. intros ? ? [= <-]. split; f_equal; lia.
Qed.

Section Patterns.
Variable fmt : Format.
Hypothesis mbits_nonneg : 0 <= mbits fmt.
Hypothesis ebits_pos : 0 < ebits fmt.

Lemma number_of_absolute b :
  number_of fmt b
    = if sign_bit fmt b then negate (absolute fmt b) else absolute fmt b.
Proof.
  unfold number_of, absolute.
  destruct (biased_exponent fmt b =? Z.ones (ebits fmt)),
    (sign_bit fmt b); reflexivity.
Qed.

(** Without the sign, operands that are not NaN are ordered as their
    patterns are. *)
Lemma absolute_compare x y :
  isnan fmt x = false → isnan fmt y = false →
  number_compare (absolute fmt x) (absolute fmt y)
    = (magnitude fmt x ?= magnitude fmt y).
Proof.
  unfold isnan, absolute, magnitude.
  pose proof (fraction_range fmt mbits_nonneg x) as Hf1.
  pose proof (fraction_range fmt mbits_nonneg y) as Hf2.
  pose proof (biased_exponent_range fmt (Z.lt_le_incl _ _ ebits_pos) x)
    as He1.
  pose proof (biased_exponent_range fmt (Z.lt_le_incl _ _ ebits_pos) y)
    as He2.
  generalize dependent (fraction fmt x). intros f1.
  generalize dependent (fraction fmt y). intros f2.
  generalize dependent (biased_exponent fmt x). intros e1.
  generalize dependent (biased_exponent fmt y). intros e2.
  intros He2 He1 Hf2 Hf1.
  set (B := 2 ^ mbits fmt) in *. set (E := Z.ones (ebits fmt)) in *.
  assert (HB : 0 < B) by (by apply Z.pow_pos_nonneg).
  assert (Hmul : ∀ a b, a < b → B * a + B <= B * b).
  { intros a b Hab. replace (B * a + B) with (B * (a + 1)) by ring.
    apply Z.mul_le_mono_nonneg_l; lia. }
  assert (Hpos : ∀ k, 0 <= k → 1 <= 2 ^ k).
  { intros k Hk. change 1 with (2 ^ 0). apply Z.pow_le_mono_r; lia. }
  destruct (Z.eqb_spec e1 E) as [-> | Hn1];
    destruct (Z.eqb_spec e2 E) as [-> | Hn2]; simpl.
  - destruct (Z.eqb_spec f1 0) as [-> | ?]; [|discriminate].
    destruct (Z.eqb_spec f2 0) as [-> | ?]; [|discriminate].
    intros _ _. symmetry. apply Z.compare_refl.
  - destruct (Z.eqb_spec f1 0) as [-> | ?]; [|discriminate].
    intros _ _. symmetry. apply Z.compare_gt_iff.
    pose proof (Hmul e2 E). lia.
  - destruct (Z.eqb_spec f2 0) as [-> | ?]; [|discriminate].
    intros _ _. symmetry. apply Z.compare_lt_iff.
    pose proof (Hmul e1 E). lia.
  - intros _ _.
    destruct (Z.eqb_spec e1 0) as [-> | Hp1];
      destruct (Z.eqb_spec e2 0) as [-> | Hp2].
    + change (Z.max 0 1 - 1) with 0. change (2 ^ 0) with 1.
      by rewrite !Z.mul_1_r, !Z.mul_0_r.
    + change (Z.max 0 1 - 1) with 0. change (2 ^ 0) with 1.
      rewrite Z.mul_1_r, Z.mul_0_r. simpl.
      replace (Z.max e2 1 - 1) with (e2 - 1) by lia.
      pose proof (Hpos (e2 - 1)). pose proof (Hmul 0 e2).
      transitivity Lt; [|symmetry]; apply Z.compare_lt_iff; [nia|lia].
    + change (Z.max 0 1 - 1) with 0. change (2 ^ 0) with 1.
      rewrite Z.mul_1_r, Z.mul_0_r. simpl.
      replace (Z.max e1 1 - 1) with (e1 - 1) by lia.
      pose proof (Hpos (e1 - 1)). pose proof (Hmul 0 e1).
      transitivity Gt; [|symmetry]; apply Z.compare_gt_iff; [nia|lia].
    + replace (Z.max e1 1 - 1) with (e1 - 1) by lia.
      replace (Z.max e2 1 - 1) with (e2 - 1) by lia.
      assert (Hpow : 2 ^ (mbits fmt + 1) = 2 * B)
        by (rewrite Z.pow_add_r by lia; change (2 ^ 1) with 2; lia).
      rewrite <- (magnitude_compare (mbits fmt) (f1 + B) (f2 + B)
                    (e1 - 1) (e2 - 1)) by (fold B; lia).
      destruct (Z.compare_spec (e1 - 1) (e2 - 1)) as [Heq | Hlt | Hgt].
      * assert (e1 = e2) as -> by lia.
        destruct (Z.compare_spec (f1 + B) (f2 + B)); symmetry;
          [apply Z.compare_eq_iff | apply Z.compare_lt_iff
          | apply Z.compare_gt_iff]; lia.
      * symmetry. apply Z.compare_lt_iff. pose proof (Hmul e1 e2). lia.
      * symmetry. apply Z.compare_gt_iff. pose proof (Hmul e2 e1). lia.
Qed.

Lemma absolute_nonneg b :
  number_compare (Finite 0) (absolute fmt b) ≠ Gt.
Proof.
  unfold absolute.
  pose proof (fraction_range fmt mbits_nonneg b) as Hf.
  destruct (_ =? Z.ones _); [done|]. unfold number_compare.
  assert (0 < 2 ^ mbits fmt) by (by apply Z.pow_pos_nonneg).
  assert (0 <= 2 ^ (Z.max (biased_exponent fmt b) 1 - 1))
    by (apply Z.pow_nonneg; lia).
  rewrite Z.compare_gt_iff. destruct (_ =? 0); nia.
Qed.

(** Within the width, an operand is its three fields. *)
Lemma bits_above b k n : 0 <= b < 2 ^ k → k <= n → Z.testbit b n = false.
Proof.
  intros Hb Hn. destruct (decide (b = 0)) as [->|Hnz]; [apply Z.bits_0|].
  apply Z.bits_above_log2; [lia|].
  assert (Z.log2 b < k); [|lia].
  apply Z.log2_lt_pow2; lia.
Qed.

Lemma fields_determine x y :
  in_width fmt x → in_width fmt y →
  sign_bit fmt x = sign_bit fmt y → magnitude fmt x = magnitude fmt y →
  x = y.
Proof.
  unfold in_width, sign_bit, magnitude. intros Hx Hy Hs Hm.
  pose proof (fraction_range fmt mbits_nonneg x) as Hf1.
  pose proof (fraction_range fmt mbits_nonneg y) as Hf2.
  assert (Hf : fraction fmt x = fraction fmt y ∧
               biased_exponent fmt x = biased_exponent fmt y).
  { assert (HB : 0 < 2 ^ mbits fmt) by (by apply Z.pow_pos_nonneg).
    assert (Hmul : ∀ a b, a < b →
              2 ^ mbits fmt * a + 2 ^ mbits fmt <= 2 ^ mbits fmt * b).
    { intros a b Hab.
      replace (2 ^ mbits fmt * a + 2 ^ mbits fmt)
        with (2 ^ mbits fmt * (a + 1)) by ring.
      apply Z.mul_le_mono_nonneg_l; lia. }
    destruct (Z.lt_trichotomy (biased_exponent fmt x)
                (biased_exponent fmt y)) as [Hlt | [Heq | Hgt]].
    - pose proof (Hmul _ _ Hlt). lia.
    - rewrite Heq in Hm. split; [lia|done].
    - pose proof (Hmul _ _ Hgt). lia. }
  destruct Hf as [Hf He]. unfold fraction, biased_exponent in Hf, He.
  apply Z.bits_inj'. intros n Hn.
  destruct (decide (n < mbits fmt)) as [Hlo|Hhi].
  - assert (Hbit : Z.testbit (Z.land x (Z.ones (mbits fmt))) n
                   = Z.testbit (Z.land y (Z.ones (mbits fmt))) n)
      by (by rewrite Hf).
    rewrite !Z.land_spec, Z.testbit_ones_nonneg in Hbit by lia.
    replace (n <? mbits fmt) with true in Hbit
      by (symmetry; apply Z.ltb_lt; lia).
    by rewrite !andb_true_r in Hbit.
  - destruct (decide (n < ebits fmt + mbits fmt)) as [Hmid|Hup].
    + assert (Hbit : Z.testbit (Z.land (x ≫ mbits fmt)
                                  (Z.ones (ebits fmt))) (n - mbits fmt)
                     = Z.testbit (Z.land (y ≫ mbits fmt)
                                    (Z.ones (ebits fmt))) (n - mbits fmt))
        by (by rewrite He).
      rewrite !Z.land_spec, !Z.shiftr_spec, Z.testbit_ones_nonneg in Hbit
        by lia.
      replace (n - mbits fmt <? ebits fmt) with true in Hbit
        by (symmetry; apply Z.ltb_lt; lia).
      rewrite !andb_true_r in Hbit.
      by replace (n - mbits fmt + mbits fmt) with n in Hbit by lia.
    + destruct (decide (n = ebits fmt + mbits fmt)) as [->|Hne]; [done|].
      rewrite (bits_above x (1 + ebits fmt + mbits fmt) n),
        (bits_above y (1 + ebits fmt + mbits fmt) n) by lia.
      reflexivity.
Qed.

Lemma magnitude_zero b :
  magnitude fmt b = 0 ↔ is_zero fmt b = true.
Proof.
  unfold magnitude, is_zero.
  pose proof (fraction_range fmt mbits_nonneg b) as Hf.
  pose proof (biased_exponent_range fmt (Z.lt_le_incl _ _ ebits_pos) b)
    as He.
  assert (0 < 2 ^ mbits fmt) by (by apply Z.pow_pos_nonneg).
  rewrite andb_true_iff, !Z.eqb_eq. split; [nia|]. intros [-> ->]. lia.
Qed.

Lemma is_zero_not_nan b : is_zero fmt b = true → isnan fmt b = false.
Proof.
  unfold is_zero, isnan. rewrite andb_true_iff, !Z.eqb_eq.
  intros [-> ->]. simpl. rewrite andb_false_r. reflexivity.
Qed.

Lemma absolute_zero b :
  is_zero fmt b = true → absolute fmt b = Finite 0.
Proof.
  unfold is_zero, absolute. rewrite andb_true_iff, !Z.eqb_eq.
  intros [-> ->].
  assert (Hones : 0 < Z.ones (ebits fmt)).
  { rewrite Z.ones_equiv.
    assert (2 ^ 1 <= 2 ^ ebits fmt) by (apply Z.pow_le_mono_r; lia).
    change (2 ^ 1) with 2 in *. lia. }
  destruct (Z.eqb_spec 0 (Z.ones (ebits fmt))); [lia|]. reflexivity.
Qed.

Lemma absolute_zero_iff b :
  isnan fmt b = false →
  absolute fmt b = Finite 0 ↔ is_zero fmt b = true.
Proof.
  intros Hb. split; [|apply absolute_zero]. intros Habs.
  apply magnitude_zero, Z.compare_eq.
  assert (Hz : is_zero fmt 0 = true).
  { unfold is_zero, biased_exponent, fraction.
    by rewrite Z.shiftr_0_l, !Z.land_0_l. }
  rewrite <- (proj2 (magnitude_zero 0) Hz).
  rewrite <- (absolute_compare b 0 Hb (is_zero_not_nan 0 Hz)).
  rewrite Habs, (absolute_zero 0 Hz). reflexivity.
Qed.

(** When two operands that are not NaN denote the same number, they are
    the same pattern or two zeros. *)
Lemma same_number x y :
  in_width fmt x → in_width fmt y →
  isnan fmt x = false → isnan fmt y = false →
  number_of fmt x = number_of fmt y →
  x = y ∨ (is_zero fmt x = true ∧ is_zero fmt y = true).
Proof.
  intros Hwx Hwy Hx Hy. rewrite !number_of_absolute.
  pose proof (absolute_compare x y Hx Hy) as Hcmp.
  pose proof (absolute_nonneg x) as Hnx.
  pose proof (absolute_nonneg y) as Hny.
  assert (Hsame : absolute fmt x = absolute fmt y →
                  sign_bit fmt x = sign_bit fmt y → x = y).
  { intros Habs Hs. apply fields_determine; [done..|].
    apply Z.compare_eq. rewrite <- Hcmp, Habs. apply number_compare_refl. }
  assert (Hopp : negate (absolute fmt x) = absolute fmt y →
                 is_zero fmt x = true ∧ is_zero fmt y = true).
  { intros Hneg. rewrite <- !absolute_zero_iff by done.
    by apply negate_nonneg. }
  assert (Hopp' : absolute fmt x = negate (absolute fmt y) →
                  is_zero fmt x = true ∧ is_zero fmt y = true).
  { intros Hneg. rewrite <- !absolute_zero_iff by done.
    by destruct (negate_nonneg _ _ Hny Hnx (eq_sym Hneg)). }
  destruct (sign_bit fmt x) eqn:Hsx, (sign_bit fmt y) eqn:Hsy; intros Heq.
  - left. apply Hsame; [|done]. by apply negate_inj.
  - right. by apply Hopp.
  - right. by apply Hopp'.
  - left. by apply Hsame.
Qed.

End Patterns.

Lemma format_of_ebits_pos w : 0 < ebits (format_of w).
Proof. by destruct w. Qed.

Lemma magnitude_small fmt b :
  0 <= mbits fmt → 0 <= ebits fmt →
  0 <= b < 2 ^ (ebits fmt + mbits fmt) →
  magnitude fmt b = b ∧ sign_bit fmt b = false.
Proof.
  intros Hm He Hb. split; [|by apply bits_above with (ebits fmt + mbits fmt)].
  unfold magnitude, biased_exponent, fraction.
  assert (HB : 0 < 2 ^ mbits fmt) by (by apply Z.pow_pos_nonneg).
  rewrite !Z.land_ones, Z.shiftr_div_pow2 by done.
  rewrite (Z.mod_small (b / 2 ^ mbits fmt)).
  - symmetry. apply Z.div_mod. lia.
  - split; [apply Z.div_pos; lia|].
    apply Z.div_lt_upper_bound; [done|].
    rewrite <- Z.pow_add_r by done. rewrite Z.add_comm. apply Hb.
Qed.

Section PatternProperties.
Context {P : FenvH}.

(** X22. [equal] on patterns: for operands within the width of the format,
    [equal] returns 1 exactly when neither is a NaN and they are the same
    pattern or two zeros (of any signs). *)
Theorem equal_on_bit_patterns
    (w : width) (x y : Z) (t : nat) (σ : Process) :
  wf σ → in_width (format_of w) x → in_width (format_of w) y →
  eval (comparator w EQ x y) t σ = Some 1 ↔
  isnan (format_of w) x = false ∧ isnan (format_of w) y = false ∧
  (x = y ∨ (is_zero (format_of w) x = true ∧
            is_zero (format_of w) y = true)).
Proof.
  intros Hwf Hwx Hwy. rewrite (comparator_result _ _ _ _ _ _ Hwf).
  pose proof (format_of_mbits w) as Hm.
  pose proof (format_of_ebits_pos w) as He.
  destruct (isnan (format_of w) x) eqn:Hx; [by split; [|intros [? _]]|].
  destruct (isnan (format_of w) y) eqn:Hy; [by split; [|intros (_ & ? & _)]|].
  simpl. split.
  - intros [= Hans]. split_and!; [done..|].
    apply (same_number _ Hm He); [done..|].
    apply number_compare_eq. by destruct (number_compare _ _).
  - intros (_ & _ & [-> | [Hzx Hzy]]).
    + by rewrite number_compare_refl.
    + rewrite !(number_of_absolute (format_of w)),
        !(absolute_zero _ He) by done.
      by destruct (sign_bit _ x), (sign_bit _ y).
Qed.

(** X23. The order on patterns: for operands with the sign bit clear that
    are not NaN, each comparator answers as the comparison of the two
    patterns as integers does; [less] returns 1 exactly when [x < y]. *)
Theorem order_on_bit_patterns
    (w : width) (p : predicate) (x y : Z) (t : nat) (σ : Process) :
  wf σ →
  0 <= x < 2 ^ (ebits (format_of w) + mbits (format_of w)) →
  0 <= y < 2 ^ (ebits (format_of w) + mbits (format_of w)) →
  isnan (format_of w) x = false → isnan (format_of w) y = false →
  eval (comparator w p x y) t σ = Some (answer p (x ?= y)) ∧
  (eval (comparator w LT x y) t σ = Some 1 ↔ x < y).
Proof.
  intros Hwf Hbx Hby Hx Hy.
  pose proof (format_of_mbits w) as Hm.
  pose proof (format_of_ebits_pos w) as He.
  destruct (magnitude_small _ x Hm (Z.lt_le_incl _ _ He) Hbx) as [Hmx Hsx].
  destruct (magnitude_small _ y Hm (Z.lt_le_incl _ _ He) Hby) as [Hmy Hsy].
  assert (Hcmp : number_compare (number_of (format_of w) x)
                                (number_of (format_of w) y) = (x ?= y)).
  { rewrite !(number_of_absolute (format_of w)), Hsx, Hsy,
      (absolute_compare _ Hm He x y Hx Hy). by rewrite Hmx, Hmy. }
  rewrite !(comparator_result _ _ _ _ _ _ Hwf), Hx, Hy, Hcmp. simpl.
  split; [done|]. rewrite <- Z.compare_lt_iff.
  destruct (x ?= y); simpl; split; (done || by intros [= ?]).
Qed.

End PatternProperties.

Lemma comparators_fit_together_witness :
  wf initial ∧
  ∃ lt eq gt le ge,
    eval (comparator (P := glibc_x86_64) Double LT one64 two64) 0%nat
      initial = Some lt ∧
    eval (comparator (P := glibc_x86_64) Double EQ one64 two64) 0%nat
      initial = Some eq ∧
    eval (comparator (P := glibc_x86_64) Double GT one64 two64) 0%nat
      initial = Some gt ∧
    eval (comparator (P := glibc_x86_64) Double LE one64 two64) 0%nat
      initial = Some le ∧
    eval (comparator (P := glibc_x86_64) Double GE one64 two64) 0%nat
      initial = Some ge ∧
    (le = 1 ↔ lt = 1 ∨ eq = 1) ∧ (ge = 1 ↔ gt = 1 ∨ eq = 1) ∧
    lt + eq + gt = 1.
Proof.
  split; [exact wf_initial|].
  exact (comparators_fit_together (P := glibc_x86_64) Double one64 two64
           0%nat initial wf_initial).
Defined.

Lemma equal_to_itself_witness :
  wf initial ∧
  eval (comparator (P := glibc_x86_64) Single EQ signaling_nan32
          signaling_nan32) 0%nat initial = Some 0 ∧
  eval (comparator (P := glibc_x86_64) Single EQ one32 one32) 0%nat initial
    = Some 1.
Proof.
  split; [exact wf_initial|]. split.
  - exact (equal_to_itself (P := glibc_x86_64) Single signaling_nan32
             0%nat initial wf_initial).
  - exact (equal_to_itself (P := glibc_x86_64) Single one32 0%nat initial
             wf_initial).
Defined.

Lemma comparators_transitive_witness :
  wf initial ∧ (LT = LT ∨ LT = LE ∨ LT = EQ) ∧
  eval (comparator (P := glibc_x86_64) Double LT minus_infinity64 one64)
    0%nat initial = Some 1 ∧
  eval (comparator (P := glibc_x86_64) Double LT one64 two64) 0%nat initial
    = Some 1 ∧
  eval (comparator (P := glibc_x86_64) Double LT minus_infinity64 two64)
    0%nat initial = Some 1.
Proof.
  assert (Hp : LT = LT ∨ LT = LE ∨ LT = EQ) by (by left).
  assert (H1 : eval (comparator (P := glibc_x86_64) Double LT
                       minus_infinity64 one64) 0%nat initial = Some 1)
    by reflexivity.
  assert (H2 : eval (comparator (P := glibc_x86_64) Double LT one64 two64)
                 0%nat initial = Some 1) by reflexivity.
  split; [exact wf_initial|]. split; [exact Hp|].
  split; [exact H1|]. split; [exact H2|].
  exact (comparators_transitive (P := glibc_x86_64) Double LT
           minus_infinity64 one64 two64 0%nat initial wf_initial Hp H1 H2).
Defined.

Lemma infinities_are_extreme_witness :
  wf initial ∧ isnan (format_of Double) one64 = false ∧
  eval (comparator (P := glibc_x86_64) Double LE one64
          (plus_infinity (format_of Double))) 0%nat initial = Some 1 ∧
  eval (comparator (P := glibc_x86_64) Double LE
          (minus_infinity (format_of Double)) one64) 0%nat initial = Some 1.
Proof.
  assert (Hx : isnan (format_of Double) one64 = false) by reflexivity.
  split; [exact wf_initial|]. split; [exact Hx|].
  exact (infinities_are_extreme (P := glibc_x86_64) Double one64 0%nat
           initial wf_initial Hx).
Defined.

Lemma equal_on_bit_patterns_witness :
  wf initial ∧ in_width (format_of Double) 0 ∧
  in_width (format_of Double) 0x8000000000000000 ∧
  eval (comparator (P := glibc_x86_64) Double EQ 0 0x8000000000000000)
    0%nat initial = Some 1.
Proof.
  assert (Hx : in_width (format_of Double) 0)
    by (unfold in_width; simpl; lia).
  assert (Hy : in_width (format_of Double) 0x8000000000000000)
    by (unfold in_width; simpl; lia).
  split; [exact wf_initial|]. split; [exact Hx|]. split; [exact Hy|].
  apply (equal_on_bit_patterns (P := glibc_x86_64) Double 0
           0x8000000000000000 0%nat initial wf_initial Hx Hy).
  split; [reflexivity|]. split; [reflexivity|]. right.
  split; reflexivity.
Defined.

Lemma order_on_bit_patterns_witness :
  wf initial ∧
  0 <= one64 < 2 ^ (ebits (format_of Double) + mbits (format_of Double)) ∧
  0 <= two64 < 2 ^ (ebits (format_of Double) + mbits (format_of Double)) ∧
  isnan (format_of Double) one64 = false ∧
  isnan (format_of Double) two64 = false ∧
  (eval (comparator (P := glibc_x86_64) Double LT one64 two64) 0%nat
     initial = Some 1 ↔ one64 < two64).
Proof.
  assert (Hbx : 0 <= one64 < 2 ^ (ebits (format_of Double)
                                  + mbits (format_of Double)))
    by (unfold one64; simpl; lia).
  assert (Hby : 0 <= two64 < 2 ^ (ebits (format_of Double)
                                  + mbits (format_of Double)))
    by (unfold two64; simpl; lia).
  assert (Hx : isnan (format_of Double) one64 = false) by reflexivity.
  assert (Hy : isnan (format_of Double) two64 = false) by reflexivity.
  split; [exact wf_initial|]. split; [exact Hbx|]. split; [exact Hby|].
  split; [exact Hx|]. split; [exact Hy|].
  exact (proj2 (order_on_bit_patterns (P := glibc_x86_64) Double LT
                  one64 two64 0%nat initial wf_initial Hbx Hby Hx Hy)).
Defined.

(** ** The life of a block *)

(** X24. Lazy creation: the first access of a thread that has no block
    allocates exactly one block, at an address that owned none, filled
    with zeros, and leaves the other blocks as they were; so the first
    snapshot a thread takes is all zero. *)
Theorem first_access_allocates_zeroed_block (t : nat) (σ : Process) :
  wf σ → specific σ !! t = None →
  (∃ p σ', get_thread_state t σ = Some (p, σ') ∧
           heap σ !! p = None ∧
           heap σ' = <[p := ThreadExceptionState.zero]> (heap σ) ∧
           specific σ' !! t = Some p) ∧
  eval ieee754_get_exceptions t σ
    = Some {| invalid := 0; divByZero := 0; overflow := 0;
              underflow := 0; inexact := 0 |}.
Proof.
  intros Hwf Hnone. split.
  - rewrite get_thread_state_unfold.
    destruct (key_once σ) eqn:Hk; simpl.
    + rewrite Hnone. eexists _, _. split; [reflexivity|]. simpl.
      split_and!; [apply fresh_block_unallocated|done|].
      by rewrite lookup_insert_eq.
    + rewrite lookup_empty. eexists _, _. split; [reflexivity|]. simpl.
      split_and!; [apply fresh_block_unallocated|done|].
      by rewrite lookup_insert_eq.
  - rewrite (eval_get_exceptions _ _ Hwf). unfold flags_of.
    by rewrite Hnone.
Qed.

Lemma first_access_allocates_zeroed_block_witness :
  wf initial ∧ specific initial !! 3%nat = None ∧
  eval ieee754_get_exceptions 3%nat initial
    = Some {| invalid := 0; divByZero := 0; overflow := 0;
              underflow := 0; inexact := 0 |}.
Proof.
  assert (Hnone : specific initial !! 3%nat = None) by reflexivity.
  split; [exact wf_initial|]. split; [exact Hnone|].
  exact (proj2 (first_access_allocates_zeroed_block 3%nat initial
                  wf_initial Hnone)).
Defined.

(** X25. When a thread that has a block ends, the destructor frees that
    block and no other, the thread is left without a block, and the flags
    it had raised are gone: a snapshot taken under the same thread
    identifier afterwards is all zero. *)
Theorem exit_releases_the_block (t : nat) (p : positive) (σ : Process) :
  wf σ → specific σ !! t = Some p →
  ∃ σ', exec thread_exit t σ = Some σ' ∧
        heap σ' !! p = None ∧ specific σ' !! t = None ∧
        (∀ q, q ≠ p → heap σ' !! q = heap σ !! q) ∧
        (∀ t', t' ≠ t → specific σ' !! t' = specific σ !! t') ∧
        eval ieee754_get_exceptions t σ'
          = Some {| invalid := 0; divByZero := 0; overflow := 0;
                    underflow := 0; inexact := 0 |}.
Proof.
  intros Hwf Hp.
  destruct (thread_exit_run t σ Hwf) as (σ' & Hrun & Hwf' & Hfl & _).
  exists σ'. split; [unfold exec; by rewrite Hrun|].
  rewrite (eval_get_exceptions _ _ Hwf'), Hfl.
  revert Hrun. unfold thread_exit, cleanup_thread_exceptions, free.
  rewrite Hp. simpl. destruct (wf_alloc _ Hwf _ _ Hp) as [s Hs].
  rewrite Hs. simpl. intros [= <-]. simpl.
  split_and!; [by rewrite lookup_delete_eq|by rewrite lookup_delete_eq
              | |  |done].
  - intros q Hq. by rewrite lookup_delete_ne.
  - intros t' Ht'. by rewrite lookup_delete_ne.
Qed.

Lemma exit_releases_the_block_witness :
  ∃ p σ, get_thread_state 0%nat initial = Some (p, σ) ∧
         wf σ ∧ specific σ !! 0%nat = Some p ∧
         ∃ σ', exec thread_exit 0%nat σ = Some σ' ∧
               heap σ' !! p = None ∧ specific σ' !! 0%nat = None.
Proof.
  destruct (first_access 0%nat initial wf_initial)
    as (p & σ & Hget & Hwf & _ & Hp & _).
  exists p, σ. split; [exact Hget|]. split; [exact Hwf|].
  split; [exact Hp|].
  destruct (exit_releases_the_block 0%nat p σ Hwf Hp)
    as (σ' & Hrun & Hfree & Hnone & _).
  exists σ'. split; [exact Hrun|]. split; [exact Hfree | exact Hnone].
Defined.

(** The states with a block used above are states the calls reach. *)
Example flags_state_reached :
  exec (ieee754_raise_exception IEEE754_EXCEPTION_OVERFLOW ;;
        ieee754_raise_exception IEEE754_EXCEPTION_UNDERFLOW) 0%nat initial
    = Some (flags_state (ThreadExceptionState.mk 0 0 1 1 0)).
Proof. reflexivity. Qed.
